(** * Personal Expense Tracker: the sync core, the demo API and the summaries

    A shallow embedding of [server.js], [src/db.js] and the stateful part of
    [src/App.jsx] (loadExpenses, syncExpenses, handleDelete, getSummary).

    - JavaScript numbers are [number]: exact rationals plus NaN.  IEEE-754
      rounding, the infinities and the negative zero are not modelled.
    - A request body is read through the five properties the handlers
      destructure; a property that is absent reads as [VUndefined].
    - Client records are typed as the data model types them: [id],
      [description], [category] and [date] are strings, [amount] is a
      number, [synced] a boolean that only local records carry.
    - Asynchronous client code runs in a state-and-exception monad over a
      [World] made of the remote list, the IndexedDB store, the React state
      and the outcome of the transport for each request still to come. *)

From Stdlib Require Import ZArith QArith Qcanon List String Ascii Bool Lia.
From Stdlib Require Import Sorting.Sorted Structures.OrderedTypeEx.
Import ListNotations.

Set Warnings "-register-all".

Local Open Scope string_scope.
Local Open Scope list_scope.

(** ** JavaScript values *)

Inductive number : Type :=
| NaN
| Num (q : Qc).

Definition num_zero : number := Num (Q2Qc 0).

(** [a + b] on two numbers. *)
Definition num_add (a b : number) : number :=
  match a, b with
  | Num x, Num y => Num (x + y)%Qc
  | _, _ => NaN
  end.

(** [a <= b] on two numbers; false as soon as one is NaN. *)
Definition num_le (a b : number) : Prop :=
  match a, b with
  | Num x, Num y => (x <= y)%Qc
  | _, _ => False
  end.

Definition num_truthy (n : number) : bool :=
  match n with
  | NaN => false
  | Num q => negb (Qeq_bool q 0)
  end.

(** The values a parsed JSON body can hold, plus [undefined] for a property
    that is not there. *)
Inductive value : Type :=
| VUndefined
| VNull
| VBool (b : bool)
| VNum (n : number)
| VStr (s : string)
| VArr (l : list value)
| VObj (l : list (string * value)).

(** ToBoolean. *)
Definition truthy (v : value) : bool :=
  match v with
  | VUndefined | VNull => false
  | VBool b => b
  | VNum n => num_truthy n
  | VStr s => negb (s =? "")
  | VArr _ | VObj _ => true
  end.

(** [v === s] for a string [s]. *)
Definition strict_eq_str (v : value) (s : string) : bool :=
  match v with
  | VStr s' => s' =? s
  | _ => false
  end.

(** [parseFloat] restricted to number arguments (where it is the identity);
    every other argument is sent to NaN.  It instantiates the [parseFloat]
    parameter of the server when a handler is run on a concrete request. *)
Definition parseFloat_num (v : value) : number :=
  match v with
  | VNum n => n
  | _ => NaN
  end.

(** ** server.js *)

Module Server.

Record expense : Type := mkExpense {
  id : value;
  amount : number;
  description : value;
  category : value;
  date : value
}.

(** The properties of [req.body] the handlers destructure. *)
Record body : Type := mkBody {
  b_id : value;
  b_amount : value;
  b_description : value;
  b_category : value;
  b_date : value
}.

Inductive payload : Type :=
| PError (error : string)
| PExpense (e : expense)
| PList (l : list expense)
| PEmpty.

Record response : Type := mkResponse {
  status : Z;
  sent : payload
}.

(** [expenses] is the module-level list; [disk] lists, oldest first, the
    arrays [saveToDisk] has handed to [fs.writeFile]. *)
Record state : Type := mkState {
  expenses : list expense;
  disk : list (list expense)
}.

Inductive request : Type :=
| GET
| POST (b : body)
| PUT (id : string) (b : body)
| DELETE (id : string).

Definition saveToDisk (st : state) : state :=
  {| expenses := expenses st; disk := disk st ++ [expenses st] |}.

(** [expenses.findIndex(exp => exp.id === id)]; [None] stands for -1. *)
Fixpoint findIndex (i : string) (l : list expense) : option nat :=
  match l with
  | [] => None
  | e :: r =>
      if strict_eq_str (id e) i then Some O
      else option_map S (findIndex i r)
  end.

(** [expenses[n] = e] for an index inside the array. *)
Fixpoint assign (n : nat) (e : expense) (l : list expense) : list expense :=
  match l, n with
  | [], _ => []
  | _ :: r, O => e :: r
  | x :: r, S n' => x :: assign n' e r
  end.

(** [expenses.splice(n, 1)]. *)
Fixpoint splice1 (n : nat) (l : list expense) : list expense :=
  match l, n with
  | [], _ => []
  | _ :: r, O => r
  | x :: r, S n' => x :: splice1 n' r
  end.

Section Handlers.

(** The JavaScript built-in, applied to whatever the body holds. *)
Variable parseFloat : value -> number.

Definition get (st : state) : state * response :=
  (st, mkResponse 200 (PList (expenses st))).

Definition post (b : body) (st : state) : state * response :=
  if negb (truthy (b_id b)) || negb (truthy (b_amount b))
     || negb (truthy (b_description b)) || negb (truthy (b_category b))
     || negb (truthy (b_date b))
  then (st, mkResponse 400 (PError "All fields are required"))
  else
    let newExpense :=
      mkExpense (b_id b) (parseFloat (b_amount b)) (b_description b)
                (b_category b) (b_date b) in
    let st1 := {| expenses := expenses st ++ [newExpense]; disk := disk st |} in
    (saveToDisk st1, mkResponse 201 (PExpense newExpense)).

Definition put (i : string) (b : body) (st : state) : state * response :=
  match findIndex i (expenses st) with
  | None => (st, mkResponse 404 (PError "Expense not found"))
  | Some expenseIndex =>
      if negb (truthy (b_amount b)) || negb (truthy (b_description b))
         || negb (truthy (b_category b)) || negb (truthy (b_date b))
      then (st, mkResponse 400 (PError "All fields are required"))
      else
        let updated :=
          mkExpense (VStr i) (parseFloat (b_amount b)) (b_description b)
                    (b_category b) (b_date b) in
        let st1 := {| expenses := assign expenseIndex updated (expenses st);
                      disk := disk st |} in
        (saveToDisk st1, mkResponse 200 (PExpense updated))
  end.

Definition delete (i : string) (st : state) : state * response :=
  match findIndex i (expenses st) with
  | None => (st, mkResponse 404 (PError "Expense not found"))
  | Some expenseIndex =>
      let st1 := {| expenses := splice1 expenseIndex (expenses st);
                    disk := disk st |} in
      (saveToDisk st1, mkResponse 204 PEmpty)
  end.

Definition handle (r : request) (st : state) : state * response :=
  match r with
  | GET => get st
  | POST b => post b st
  | PUT i b => put i b st
  | DELETE i => delete i st
  end.

End Handlers.

(** The five required properties all pass the [!x] test. *)
Definition all_truthy (b : body) : bool :=
  truthy (b_id b) && truthy (b_amount b) && truthy (b_description b)
  && truthy (b_category b) && truthy (b_date b).

(** A property is missing when the body does not have it. *)
Definition missing (v : value) : Prop := v = VUndefined.

Definition any_missing (b : body) : Prop :=
  missing (b_id b) \/ missing (b_amount b) \/ missing (b_description b)
  \/ missing (b_category b) \/ missing (b_date b).

Definition unique_ids (l : list expense) : Prop := NoDup (map id l).

(** The requests of [rs] served one after the other, with the answers in
    the order of the requests. *)
Fixpoint run (parseFloat : value -> number) (rs : list request) (st : state)
    : state * list response :=
  match rs with
  | [] => (st, [])
  | r :: rs' =>
      let (st1, answer) := handle parseFloat r st in
      let (st2, answers) := run parseFloat rs' st1 in
      (st2, answer :: answers)
  end.

(** The four properties PUT requires. *)
Definition put_truthy (b : body) : bool :=
  truthy (b_amount b) && truthy (b_description b) && truthy (b_category b)
  && truthy (b_date b).

(** Some record of the list has the id [i]. *)
Definition known (i : string) (l : list expense) : Prop :=
  exists e, In e l /\ id e = VStr i.

(** The last array handed to the disk, if any, is the list in memory. *)
Definition mirrored (st : state) : Prop :=
  disk st = [] \/ exists d, disk st = d ++ [expenses st].

(** The id, description, category and date of a stored record are truthy. *)
Definition required_truthy (e : expense) : Prop :=
  truthy (id e) = true /\ truthy (description e) = true
  /\ truthy (category e) = true /\ truthy (date e) = true.

End Server.

(** ** The remote service on typed records

    The handlers of [server.js] on the bodies the client sends, whose
    properties are typed as the data model types them.  The lemmas
    [post_refines] and [delete_refines] relate them to [Server.post] and
    [Server.delete]. *)

Module Remote.

(** A record as the service keeps it: no [synced]. *)
Record expense : Type := mkExpense {
  id : string;
  amount : number;
  description : string;
  category : string;
  date : string
}.

(** The five [!x] tests of the POST handler.  A NaN amount travels as
    [null]; both are falsy. *)
Definition accepted (b : expense) : bool :=
  negb (id b =? "") && num_truthy (amount b) && negb (description b =? "")
  && negb (category b =? "") && negb (date b =? "").

Fixpoint findIndex (i : string) (l : list expense) : option nat :=
  match l with
  | [] => None
  | e :: r => if id e =? i then Some O else option_map S (findIndex i r)
  end.

Fixpoint splice1 (n : nat) (l : list expense) : list expense :=
  match l, n with
  | [], _ => []
  | _ :: r, O => r
  | x :: r, S n' => x :: splice1 n' r
  end.

Definition get (l : list expense) : list expense * Z := (l, 200%Z).

Definition post (b : expense) (l : list expense) : list expense * Z :=
  if accepted b then (l ++ [b], 201%Z) else (l, 400%Z).

Definition delete (i : string) (l : list expense) : list expense * Z :=
  match findIndex i l with
  | None => (l, 404%Z)
  | Some expenseIndex => (splice1 expenseIndex l, 204%Z)
  end.

(** The body [JSON.stringify] makes of the five properties, read back by
    [express.json()]. *)
Definition wire (b : expense) : Server.body :=
  Server.mkBody (VStr (id b))
                (match amount b with NaN => VNull | Num q => VNum (Num q) end)
                (VStr (description b)) (VStr (category b)) (VStr (date b)).

(** A typed record as [server.js] stores it. *)
Definition embed (e : expense) : Server.expense :=
  Server.mkExpense (VStr (id e)) (amount e) (VStr (description e))
                   (VStr (category e)) (VStr (date e)).

Definition present (i : string) (l : list expense) : Prop := In i (map id l).

Definition unique_ids (l : list expense) : Prop := NoDup (map id l).

End Remote.

(** ** The client's records *)

(** An expense as the client holds it. *)
Record expense : Type := mkExpense {
  id : string;
  amount : number;
  description : string;
  category : string;
  date : string;
  synced : bool
}.

(** [{ ...exp, synced: true }] on a record of the service. *)
Definition mark_synced (exp : Remote.expense) : expense :=
  mkExpense (Remote.id exp) (Remote.amount exp) (Remote.description exp)
            (Remote.category exp) (Remote.date exp) true.

(** [exp.synced = b] *)
Definition with_synced (b : bool) (exp : expense) : expense :=
  mkExpense (id exp) (amount exp) (description exp) (category exp) (date exp) b.

(** The properties of [JSON.stringify(exp)] the POST handler reads. *)
Definition body_of (exp : expense) : Remote.expense :=
  Remote.mkExpense (id exp) (amount exp) (description exp) (category exp)
                   (date exp).

(** ** The IndexedDB object store ['expenses'], [keyPath: 'id']

    The store keeps its records in ascending key order, and [getAll] returns
    them in that order. *)

Module ObjectStore.

Definition t : Type := list expense.

(** [store.put(e)]: insert at the key's place, replacing the record that
    has the key. *)
Fixpoint put (e : expense) (s : t) : t :=
  match s with
  | [] => [e]
  | x :: r =>
      match String.compare (id e) (id x) with
      | Lt => e :: x :: r
      | Eq => e :: r
      | Gt => x :: put e r
      end
  end.

Definition has_key (k : string) (s : t) : bool :=
  existsb (fun x => id x =? k) s.

(** [store.add(e)]: [None] is the ConstraintError raised when the key is
    already in the store. *)
Definition add (e : expense) (s : t) : option t :=
  if has_key (id e) s then None else Some (put e s).

(** [store.delete(k)] *)
Definition delete (k : string) (s : t) : t :=
  filter (fun x => negb (id x =? k)) s.

Definition getAll (s : t) : list expense := s.

(** Keys are compared character by character. *)
Definition key_lt (a b : string) : Prop := String.compare a b = Lt.

(** Keys strictly ascending: the shape every store has. *)
Definition ordered (s : t) : Prop := StronglySorted key_lt (map id s).

Definition present (k : string) (s : t) : Prop := In k (map id s).

Definition unique_ids (s : t) : Prop := NoDup (map id s).

End ObjectStore.

(** ** The world the client runs in *)

Inductive http : Type :=
| HttpGet
| HttpPost (sentBody : expense)
| HttpDelete (i : string).

Record World : Type := mkWorld {
  remote : list Remote.expense;     (* the server's [expenses] *)
  local : ObjectStore.t;        (* the IndexedDB store *)
  shown : list expense;         (* the React state [expenses] *)
  syncing : bool;               (* the React state [syncing] *)
  net : list bool;              (* does the next request get through? *)
  issued : list http            (* the requests issued so far, oldest first *)
}.

Inductive exn : Type :=
| NetworkError       (* [fetch] rejected *)
| ConstraintError.   (* [store.add] on a key that exists *)

Inductive result (A : Type) : Type :=
| Ok (a : A)
| Throw (e : exn).

Arguments Ok {A} a.
Arguments Throw {A} e.

Definition M (A : Type) : Type := World -> result A * World.

Definition ret {A} (a : A) : M A := fun w => (Ok a, w).

Definition bind {A B} (c : M A) (k : A -> M B) : M B :=
  fun w =>
    match c w with
    | (Ok a, w') => k a w'
    | (Throw e, w') => (Throw e, w')
    end.

Definition throw {A} (e : exn) : M A := fun w => (Throw e, w).

(** [try { c } catch (error) { h }] *)
Definition try_catch {A} (c : M A) (h : exn -> M A) : M A :=
  fun w =>
    match c w with
    | (Ok a, w') => (Ok a, w')
    | (Throw e, w') => h e w'
    end.

Declare Scope monad_scope.
Delimit Scope monad_scope with monad.
Notation "x <- c ;; k" := (bind c (fun x => k))
  (at level 61, c at next level, right associativity) : monad_scope.
Notation "c ;; k" := (bind c (fun _ => k))
  (at level 61, right associativity) : monad_scope.

Local Open Scope monad_scope.

(** [for (const x of l) { await body(x) }] *)
Fixpoint for_of {A} (l : list A) (body : A -> M unit) : M unit :=
  match l with
  | [] => ret tt
  | x :: r => body x ;; for_of r body
  end.

Definition when (b : bool) (c : M unit) : M unit :=
  if b then c else ret tt.

Definition set_remote (l : list Remote.expense) : M unit :=
  fun w => (Ok tt, mkWorld l (local w) (shown w) (syncing w) (net w) (issued w)).

Definition set_local (s : ObjectStore.t) : M unit :=
  fun w => (Ok tt, mkWorld (remote w) s (shown w) (syncing w) (net w) (issued w)).

Definition setExpenses (l : list expense) : M unit :=
  fun w => (Ok tt, mkWorld (remote w) (local w) l (syncing w) (net w) (issued w)).

Definition setSyncing (b : bool) : M unit :=
  fun w => (Ok tt, mkWorld (remote w) (local w) (shown w) b (net w) (issued w)).

(** The request is issued, then the transport decides whether it resolves;
    when nothing is left in [net] the server is out of reach. *)
Definition send (r : http) : M unit :=
  fun w =>
    let w' := mkWorld (remote w) (local w) (shown w) (syncing w) (tl (net w))
                      (issued w ++ [r]) in
    match net w with
    | true :: _ => (Ok tt, w')
    | _ => (Throw NetworkError, w')
    end.

(** [fetch(`${API_BASE}/expenses`)] followed by [response.json()]. *)
Definition fetch_get : M (list Remote.expense) :=
  send HttpGet ;;
  fun w => let (l, _) := Remote.get (remote w) in (Ok l, w).

(** [fetch(`${API_BASE}/expenses`, { method: 'POST', body: JSON.stringify(exp) })];
    the result is the status of the response. *)
Definition fetch_post (exp : expense) : M Z :=
  send (HttpPost exp) ;;
  fun w => let (l, st) := Remote.post (body_of exp) (remote w) in
           (set_remote l ;; ret st) w.

(** [fetch(`${API_BASE}/expenses/${id}`, { method: 'DELETE' })] *)
Definition fetch_delete (i : string) : M Z :=
  send (HttpDelete i) ;;
  fun w => let (l, st) := Remote.delete i (remote w) in
           (set_remote l ;; ret st) w.

(** ** src/db.js *)

Module Db.

Definition addExpense (e : expense) : M unit :=
  fun w =>
    match ObjectStore.add e (local w) with
    | Some s => set_local s w
    | None => (Throw ConstraintError, w)
    end.

Definition getExpenses : M (list expense) :=
  fun w => (Ok (ObjectStore.getAll (local w)), w).

Definition updateExpense (e : expense) : M unit :=
  fun w => set_local (ObjectStore.put e (local w)) w.

Definition deleteExpense (i : string) : M unit :=
  fun w => set_local (ObjectStore.delete i (local w)) w.

End Db.

(** ** Dates: the built-ins [getSummary] uses

    A time value is a number of milliseconds since the epoch; [None] is the
    NaN of an invalid date. *)

Module Date.

Local Open Scope Z_scope.

Definition msPerDay : Z := 86400000.

(** Days since 1970-01-01 of a day of the proleptic Gregorian calendar,
    [m] counted from 1. *)
Definition days_from_civil (y m d : Z) : Z :=
  let y' := if m <=? 2 then y - 1 else y in
  let era := y' / 400 in
  let yoe := y' - era * 400 in
  let mp := (m + 9) mod 12 in
  let doy := (153 * mp + 2) / 5 + d - 1 in
  let doe := yoe * 365 + yoe / 4 - yoe / 100 + doy in
  era * 146097 + doe - 719468.

(** The calendar day (year, month from 1, day) of a day number. *)
Definition civil_from_days (z : Z) : Z * Z * Z :=
  let z' := z + 719468 in
  let era := z' / 146097 in
  let doe := z' - era * 146097 in
  let yoe := (doe - doe / 1460 + doe / 36524 - doe / 146096) / 365 in
  let doy := doe - (365 * yoe + yoe / 4 - yoe / 100) in
  let mp := (5 * doy + 2) / 153 in
  let d := doy - (153 * mp + 2) / 5 + 1 in
  let m := if mp <? 10 then mp + 3 else mp - 9 in
  let y := yoe + era * 400 in
  (if m <=? 2 then y + 1 else y, m, d).

(** [now] is the time value of [new Date()].  The zone of the engine is
    given by its two offsets, in milliseconds: [offsetAt t] is the offset of
    local time from UTC in force at the instant [t], and [offsetOf t] is the
    offset the engine takes away from the local time value [t] to get an
    instant; with daylight saving both change over the year. *)
Record clock : Type := mkClock {
  now : Z;
  offsetAt : Z -> Z;
  offsetOf : Z -> Z
}.

(** The local day [now] falls on. *)
Definition local_day (c : clock) : Z :=
  (now c + offsetAt c (now c)) / msPerDay.

Definition getFullYear (c : clock) : Z := fst (fst (civil_from_days (local_day c))).
(** Months count from 0. *)
Definition getMonth (c : clock) : Z := snd (fst (civil_from_days (local_day c))) - 1.
Definition getDate (c : clock) : Z := snd (civil_from_days (local_day c)).

(** [new Date(year, month, day)]: the instant of local midnight of that
    day; a year from 0 to 99 is a year of the twentieth century. *)
Definition make (c : clock) (year month day : Z) : Z :=
  let yr := if (0 <=? year) && (year <=? 99) then 1900 + year else year in
  let t := days_from_civil yr (month + 1) day * msPerDay in
  t - offsetOf c t.

Definition digit (a : ascii) : option Z :=
  let n := (Z.of_nat (nat_of_ascii a) - 48)%Z in
  if (0 <=? n) && (n <=? 9) then Some n else None.

Fixpoint digits (acc : Z) (s : string) : option Z :=
  match s with
  | EmptyString => Some acc
  | String a r =>
      match digit a with
      | Some n => digits (10 * acc + n) r
      | None => None
      end
  end.

(** [new Date(s).getTime()] for the date-only form [YYYY-MM-DD] of a day
    that exists, which is read as midnight UTC.  Every other string is
    sent to NaN here; what an engine does with them varies. *)
Definition parse_date_only (s : string) : option Z :=
  if (String.length s =? 10)%nat
     && (substring 4 1 s =? "-")%string && (substring 7 1 s =? "-")%string
  then
    match digits 0 (substring 0 4 s), digits 0 (substring 5 2 s),
          digits 0 (substring 8 2 s) with
    | Some y, Some m, Some d =>
        let z := days_from_civil y m d in
        match civil_from_days z with
        | (y', m', d') =>
            if (y' =? y) && (m' =? m) && (d' =? d)
            then Some (z * msPerDay) else None
        end
    | _, _, _ => None
    end
  else None.

(** [a >= b] on two dates; [None] on the right also stands for
    [undefined]. *)
Definition ge (a b : option Z) : bool :=
  match a, b with
  | Some x, Some y => y <=? x
  | _, _ => false
  end.

End Date.

(** ** src/App.jsx *)

Module App.

(** [serverIds.has(k)] *)
Definition has (serverIds : list string) (k : string) : bool :=
  existsb (fun s => s =? k) serverIds.

Definition loadExpenses (isOnline : bool) : M unit :=
  try_catch
    (if isOnline then
       serverExpenses <- fetch_get ;;
       let serverWithFlag := map mark_synced serverExpenses in
       localExpenses <- Db.getExpenses ;;
       let pendingLocal := filter (fun le => negb (synced le)) localExpenses in
       let serverIds := map id serverWithFlag in
       let pendingNotOnServer :=
         filter (fun p => negb (has serverIds (id p))) pendingLocal in
       let merged := serverWithFlag ++ pendingNotOnServer in
       setExpenses merged ;;
       for_of serverWithFlag Db.updateExpense
     else
       localExpenses <- Db.getExpenses ;;
       setExpenses localExpenses)
    (fun _ =>
       localExpenses <- Db.getExpenses ;;
       setExpenses localExpenses).

Definition syncExpenses (isOnline : bool) : M unit :=
  setSyncing true ;;
  try_catch
    (localExpenses <- Db.getExpenses ;;
     for_of localExpenses (fun exp =>
       when (negb (synced exp))
         (_ <- fetch_post exp ;;
          Db.updateExpense (with_synced true exp))) ;;
     loadExpenses isOnline)
    (fun _ => ret tt) ;;
  setSyncing false.

Definition handleDelete (isOnline : bool) (expenses : list expense)
    (i : string) : M unit :=
  when isOnline (_ <- fetch_delete i ;; ret tt) ;;
  Db.deleteExpense i ;;
  setExpenses (filter (fun exp => negb (id exp =? i)) expenses).

Section Summary.

(** [s => new Date(s).getTime()] of the engine. *)
Variable parse : string -> option Z.
Variable c : Date.clock.

(** The [start] of a period; [None] when [period] is none of the three
    and [start] stays undefined. *)
Definition start (period : string) : option Z :=
  if (period =? "today")%string then
    Some (Date.make c (Date.getFullYear c) (Date.getMonth c) (Date.getDate c))
  else if (period =? "week")%string then
    Some (Date.now c - 7 * 24 * 60 * 60 * 1000)%Z
  else if (period =? "month")%string then
    Some (Date.make c (Date.getFullYear c) (Date.getMonth c) 1)
  else None.

Definition getSummary (expenses : list expense) (period : string) : number :=
  fold_left (fun sum exp => num_add sum (amount exp))
            (filter (fun exp => Date.ge (parse (date exp)) (start period))
                    expenses)
            num_zero.

End Summary.

(** The categories of the form and of the chart. *)
Definition categories : list string :=
  ["Food"; "Transport"; "Rent"; "Entertainment"; "Other"].

(** [chartData.datasets[0].data]: one total per category, in the order of
    [categories]. *)
Definition chartData (expenses : list expense) : list number :=
  map (fun cat =>
         fold_left (fun sum exp => num_add sum (amount exp))
                   (filter (fun exp => category exp =? cat) expenses)
                   num_zero)
      categories.

End App.

(** ** What the specification says, in its own words *)

Module Spec.

(** The working set of the load/merge algorithm: the remote records, each
    marked synced, then the local records with [synced = false] whose id
    is not the id of a remote record. *)
Definition working_set (remoteList : list Remote.expense)
    (localList : list expense) : list expense :=
  map mark_synced remoteList
  ++ filter (fun l => negb (synced l)
                      && negb (existsb (fun r => Remote.id r =? id l) remoteList))
            localList.

(** The sum of the amounts of a list of records, left to right from 0. *)
Definition total (l : list expense) : number :=
  fold_left (fun sum exp => num_add sum (amount exp)) l num_zero.

(** The start of the three windows: local midnight of today, seven times
    twenty-four hours before now, local midnight of the first of the
    month. *)
Inductive period : Type := Today | Week | Month.

Definition name (p : period) : string :=
  match p with
  | Today => "today"
  | Week => "week"
  | Month => "month"
  end.

Definition window_start (c : Date.clock) (p : period) : Z :=
  match p with
  | Today => Date.make c (Date.getFullYear c) (Date.getMonth c) (Date.getDate c)
  | Week => (Date.now c - 7 * 24 * 60 * 60 * 1000)%Z
  | Month => Date.make c (Date.getFullYear c) (Date.getMonth c) 1
  end.

(** A record is in a window when its date is a valid one between the
    start of the window and now. *)
Definition in_window (parse : string -> option Z) (c : Date.clock)
    (p : period) (exp : expense) : bool :=
  match parse (date exp) with
  | Some t => (window_start c p <=? t)%Z && (t <=? Date.now c)%Z
  | None => false
  end.

(** A record is past the start of a window: no upper end. *)
Definition since_start (parse : string -> option Z) (c : Date.clock)
    (p : period) (exp : expense) : bool :=
  match parse (date exp) with
  | Some t => (window_start c p <=? t)%Z
  | None => false
  end.

Definition windowed_summary (parse : string -> option Z) (c : Date.clock)
    (expenses : list expense) (p : period) : number :=
  total (filter (in_window parse c p) expenses).

(** No negative amount: every amount is a number that is at least 0. *)
Definition no_negative_amounts (l : list expense) : Prop :=
  Forall (fun exp => num_le num_zero (amount exp)) l.

(** The windows nest: the month starts before the week, the week before
    today. *)
Definition windows_nest (c : Date.clock) : Prop :=
  (window_start c Month <= window_start c Week)%Z
  /\ (window_start c Week <= window_start c Today)%Z.

(** The local records still to push. *)
Definition pending (l : list expense) : list expense :=
  filter (fun exp => negb (synced exp)) l.

(** The remote list once a create request has been made for each record of
    [l], in order, whatever the answers. *)
Definition pushed (remoteList : list Remote.expense) (l : list expense)
    : list Remote.expense :=
  fold_left (fun r exp => fst (Remote.post (body_of exp) r)) l remoteList.

(** The store once each record of [l] has been put in it, in order. *)
Definition written_back (s : ObjectStore.t) (l : list expense) : ObjectStore.t :=
  fold_left (fun s' exp => ObjectStore.put exp s') l s.

(** The store of a sweep that has gone through the first [j] pending
    records of [l] and no further. *)
Fixpoint mark_first (j : nat) (l : list expense) : list expense :=
  match l with
  | [] => []
  | x :: r =>
      if synced x then x :: mark_first j r
      else match j with
           | O => x :: r
           | S j' => with_synced true x :: mark_first j' r
           end
  end.

(** The next [n] requests get through. *)
Definition resolves (n : nat) (w : World) : Prop :=
  firstn n (net w) = repeat true n.

(** The request after the next [j] does not get through. *)
Definition fails_at (j : nat) (w : World) : Prop :=
  resolves j w /\ hd false (skipn j (net w)) = false.

(** The world at the end of a push sweep in which every request resolved:
    a create request issued for each pending record, every local record
    marked synced in place. *)
Definition after_sweep (w : World) : World :=
  mkWorld (pushed (remote w) (pending (local w)))
          (map (with_synced true) (local w))
          (shown w) true
          (skipn (List.length (pending (local w))) (net w))
          (issued w ++ map HttpPost (pending (local w))).

Definition with_syncing (b : bool) (w : World) : World :=
  mkWorld (remote w) (local w) (shown w) b (net w) (issued w).

(** A computation that leaves the keys of the local store in order,
    whether it returns or throws. *)
Definition keeps_order {A} (m : M A) : Prop :=
  forall w, ObjectStore.ordered (local w) ->
            ObjectStore.ordered (local (snd (m w))).

End Spec.

(** ** Concrete records, stores and clocks *)

Module Example.

(** 12.50 and 15 *)
Definition twelve_fifty : number := Num (Q2Qc (25 # 2)).
Definition fifteen : number := Num (Q2Qc 15).

(** The record A of the scenarios, created offline, and a second one. *)
Definition coffee : expense :=
  mkExpense "1" twelve_fifty "Coffee" "Food" "2024-01-15" false.
Definition bus : expense :=
  mkExpense "2" fifteen "Bus" "Transport" "2024-01-10" false.

(** A as the service keeps it, and A edited offline afterwards. *)
Definition coffee_remote : Remote.expense :=
  Remote.mkExpense "1" twelve_fifty "Coffee" "Food" "2024-01-15".
Definition coffee_edited : expense :=
  mkExpense "1" fifteen "Coffee" "Food" "2024-01-15" false.

(** A record dated after [noon]. *)
Definition rent_next_month : expense :=
  mkExpense "3" fifteen "Rent" "Rent" "2024-02-01" true.

(** Two pending records, an empty remote list; every request resolves. *)
Definition two_pending : World :=
  mkWorld [] [coffee; bus] [coffee; bus] false [true; true; true] [].

(** The same, but the first request does not get through; the following
    ones would. *)
Definition first_request_fails : World :=
  mkWorld [] [coffee; bus] [coffee; bus] false [false; true; true] [].

(** A is on the service and has been edited offline; the ids of each store
    are all different. *)
Definition edited_offline : World :=
  mkWorld [coffee_remote] [coffee_edited] [coffee_edited] false
          [true; true; true] [].

(** A remote record next to a pending local one. *)
Definition one_each : World :=
  mkWorld [coffee_remote] [bus] [] false [true; true] [].

(** 2024-01-15 12:00 UTC, local time being UTC. *)
Definition noon : Date.clock :=
  Date.mkClock 1705320000000 (fun _ => 0%Z) (fun _ => 0%Z).

(** A body with the five properties. *)
Definition coffee_body : Server.body :=
  Server.mkBody (VStr "1") (VNum twelve_fifty) (VStr "Coffee") (VStr "Food")
                (VStr "2024-01-15").

(** The five properties are there, the description is the empty string. *)
Definition blank_description : Server.body :=
  Server.mkBody (VStr "1") (VNum twelve_fifty) (VStr "") (VStr "Food")
                (VStr "2024-01-15").

Definition empty_server : Server.state := Server.mkState [] [].

(** The server after one POST of [coffee_body]. *)
Definition one_coffee : Server.state :=
  fst (Server.post parseFloat_num coffee_body empty_server).

(** A PUT body: no id, the four other properties. *)
Definition tea_body : Server.body :=
  Server.mkBody VUndefined (VNum fifteen) (VStr "Tea") (VStr "Food")
                (VStr "2024-01-16").

(** A pending record with the amount 0, which the service answers 400. *)
Definition free_sample : expense :=
  mkExpense "4" (Num (Q2Qc 0)) "Sample" "Food" "2024-01-12" false.

Definition only_free_sample : World :=
  mkWorld [] [free_sample] [free_sample] false [true; true] [].

(** A record whose amount is NaN, dated the day of [noon]. *)
Definition no_amount : expense :=
  mkExpense "5" NaN "Tea" "Food" "2024-01-15" true.

(** A record whose date is no date and whose category is none of the
    five. *)
Definition gift : expense :=
  mkExpense "6" fifteen "Gift" "Gift" "yesterday" true.

(** The server is out of reach. *)
Definition server_down : World :=
  mkWorld [coffee_remote] [bus] [] false [false] [].

(** Nothing is pending. *)
Definition all_synced : World :=
  mkWorld [coffee_remote] [mark_synced coffee_remote] [] false [true] [].

End Example.

(** * Properties *)

(** ** server.js *)

Section ServerFacts.

Variable parseFloat : value -> number.

Import Server.

Lemma findIndex_Some_lt i l n :
  findIndex i l = Some n -> (n < List.length l)%nat.
Proof.
  revert n; induction l as [|e r IH]; intros n; simpl; [discriminate|].
  destruct (strict_eq_str (Server.id e) i).
  - intros [= <-]; lia.
  - destruct (findIndex i r) as [m|]; simpl; [|discriminate].
    intros [= <-]. specialize (IH m eq_refl). lia.
Qed.

Lemma findIndex_Some_id i l n :
  findIndex i l = Some n ->
  exists e, nth_error l n = Some e /\ Server.id e = VStr i.
Proof.
  revert n; induction l as [|e r IH]; intros n; simpl; [discriminate|].
  destruct (strict_eq_str (Server.id e) i) eqn:E.
  - intros [= <-]. exists e; split; [reflexivity|].
    unfold strict_eq_str in E. destruct (Server.id e); try discriminate.
    apply String.eqb_eq in E. now subst.
  - destruct (findIndex i r) as [m|]; simpl; [|discriminate].
    intros [= <-]. apply IH. reflexivity.
Qed.

Lemma findIndex_None i l :
  findIndex i l = None <-> (forall e, In e l -> Server.id e <> VStr i).
Proof.
  induction l as [|e r IH]; simpl.
  - split; [intros _ e []|reflexivity].
  - destruct (strict_eq_str (Server.id e) i) eqn:E.
    + split; [discriminate|]. intros H. exfalso. apply (H e); [now left|].
      unfold strict_eq_str in E. destruct (Server.id e); try discriminate.
      apply String.eqb_eq in E. now subst.
    + destruct (findIndex i r) as [m|]; simpl.
      * split; [discriminate|]. intros H.
        assert (Hr : forall e0, In e0 r -> Server.id e0 <> VStr i)
          by (intros e0 He0; apply H; now right).
        apply IH in Hr. discriminate.
      * split; [|reflexivity]. intros _ e0 [<-|He0].
        -- intros Hid. rewrite Hid in E. simpl in E.
           rewrite String.eqb_refl in E. discriminate.
        -- now apply (proj1 IH).
Qed.

Lemma map_id_assign n e l x :
  nth_error l n = Some x -> Server.id x = Server.id e ->
  map Server.id (assign n e l) = map Server.id l.
Proof.
  revert n; induction l as [|y r IH]; intros [|n]; simpl; try discriminate.
  - intros [= ->] Hid. now rewrite Hid.
  - intros Hn Hid. f_equal. now apply IH.
Qed.

Lemma NoDup_map_splice1 n l :
  NoDup (map Server.id l) -> NoDup (map Server.id (splice1 n l)).
Proof.
  revert n; induction l as [|y r IH]; intros n H; [destruct n; exact H|].
  simpl in H. inversion H as [|? ? Hnin Hnd]; subst.
  destruct n as [|n]; simpl; [exact Hnd|].
  constructor; [|now apply IH].
  intros Hin. apply Hnin. clear - Hin.
  revert n Hin; induction r as [|z r IH]; intros [|n]; simpl; intros Hin;
    try contradiction; auto.
  destruct Hin as [Hin|Hin]; [now left|right; eauto].
Qed.

Lemma all_truthy_guard b :
  negb (truthy (b_id b)) || negb (truthy (b_amount b))
  || negb (truthy (b_description b)) || negb (truthy (b_category b))
  || negb (truthy (b_date b)) = negb (all_truthy b).
Proof.
  unfold all_truthy.
  destruct (truthy (b_id b)), (truthy (b_amount b)),
    (truthy (b_description b)), (truthy (b_category b)),
    (truthy (b_date b)); reflexivity.
Qed.

Lemma any_missing_falsy b : any_missing b -> all_truthy b = false.
Proof.
  unfold any_missing, missing, all_truthy.
  intros [H|[H|[H|[H|H]]]]; rewrite H; simpl;
    repeat rewrite ?andb_false_r, ?andb_false_l; reflexivity.
Qed.

(** What POST does, case by case. *)
Lemma post_cases b st :
  post parseFloat b st =
  if all_truthy b then
    let newExpense :=
      Server.mkExpense (b_id b) (parseFloat (b_amount b)) (b_description b)
                       (b_category b) (b_date b) in
    (mkState (expenses st ++ [newExpense])
             (disk st ++ [expenses st ++ [newExpense]]),
     mkResponse 201 (PExpense newExpense))
  else (st, mkResponse 400 (PError "All fields are required")).
Proof.
  unfold post. rewrite all_truthy_guard.
  destruct (all_truthy b); reflexivity.
Qed.

Lemma put_cases i b st :
  put parseFloat i b st =
  match findIndex i (expenses st) with
  | None => (st, mkResponse 404 (PError "Expense not found"))
  | Some n =>
      if truthy (b_amount b) && truthy (b_description b)
         && truthy (b_category b) && truthy (b_date b)
      then
        let updated :=
          Server.mkExpense (VStr i) (parseFloat (b_amount b))
                           (b_description b) (b_category b) (b_date b) in
        (mkState (assign n updated (expenses st))
                 (disk st ++ [assign n updated (expenses st)]),
         mkResponse 200 (PExpense updated))
      else (st, mkResponse 400 (PError "All fields are required"))
  end.
Proof.
  unfold put. destruct (findIndex i (expenses st)); [|reflexivity].
  destruct (truthy (b_amount b)), (truthy (b_description b)),
    (truthy (b_category b)), (truthy (b_date b)); reflexivity.
Qed.

(** C6, as the handler has it: POST /expenses answers 201 exactly when the
    five properties are all truthy, and then the record it sends back is
    the record it has appended to the list; it answers 400 exactly when
    one of them is falsy.  A missing property is falsy, so a body with a
    property missing is answered 400. *)
Theorem post_created_iff_all_truthy b st :
  (status (snd (post parseFloat b st)) = 201%Z <-> all_truthy b = true)
  /\ (status (snd (post parseFloat b st)) = 400%Z <-> all_truthy b = false)
  /\ (all_truthy b = true ->
      let newExpense :=
        Server.mkExpense (b_id b) (parseFloat (b_amount b)) (b_description b)
                         (b_category b) (b_date b) in
      Server.sent (snd (post parseFloat b st)) = PExpense newExpense
      /\ expenses (fst (post parseFloat b st)) = expenses st ++ [newExpense])
  /\ (any_missing b -> status (snd (post parseFloat b st)) = 400%Z).
Proof.
  rewrite post_cases.
  repeat split.
  - destruct (all_truthy b); simpl; [reflexivity|discriminate].
  - intros ->. reflexivity.
  - destruct (all_truthy b); simpl; [discriminate|reflexivity].
  - intros ->. reflexivity.
  - rewrite H. reflexivity.
  - rewrite H. reflexivity.
  - intros H. rewrite (any_missing_falsy b H). reflexivity.
Qed.

(** C7: a PUT whose id is the id of no stored record is answered 404 with
    the body [{"error": "Expense not found"}], whatever it carries, and
    the state stays as it was. *)
Theorem put_unknown_id_not_found i b st :
  (forall e, In e (expenses st) -> Server.id e <> VStr i) ->
  put parseFloat i b st = (st, mkResponse 404 (PError "Expense not found")).
Proof.
  intros H. apply findIndex_None in H.
  rewrite put_cases, H. reflexivity.
Qed.

(** C10: whenever a handler answers 400 or 404, the list of expenses is
    the one before the request and nothing has been handed to the disk. *)
Theorem client_error_leaves_state r st :
  status (snd (handle parseFloat r st)) = 400%Z
  \/ status (snd (handle parseFloat r st)) = 404%Z ->
  fst (handle parseFloat r st) = st.
Proof.
  destruct r as [|b|i b|i]; simpl.
  - intros [H|H]; discriminate.
  - rewrite post_cases. destruct (all_truthy b); simpl;
      [intros [H|H]; discriminate|reflexivity].
  - rewrite put_cases. destruct (findIndex i (expenses st)); [|reflexivity].
    destruct (truthy (b_amount b) && truthy (b_description b)
              && truthy (b_category b) && truthy (b_date b)); simpl;
      [intros [H|H]; discriminate|reflexivity].
  - unfold delete. destruct (findIndex i (expenses st)); simpl;
      [intros [H|H]; discriminate|reflexivity].
Qed.

Lemma put_keeps_ids i b st :
  map Server.id (expenses (fst (put parseFloat i b st)))
  = map Server.id (expenses st).
Proof.
  rewrite put_cases. destruct (findIndex i (expenses st)) as [n|] eqn:E;
    [|reflexivity].
  destruct (truthy (b_amount b) && truthy (b_description b)
            && truthy (b_category b) && truthy (b_date b)); [|reflexivity].
  simpl. destruct (findIndex_Some_id _ _ _ E) as [x [Hx Hid]].
  now apply map_id_assign with (x := x).
Qed.

Lemma put_keeps_unique i b st :
  unique_ids (expenses st) ->
  unique_ids (expenses (fst (put parseFloat i b st))).
Proof. unfold unique_ids. now rewrite put_keeps_ids. Qed.

Lemma delete_keeps_unique i st :
  unique_ids (expenses st) ->
  unique_ids (expenses (fst (delete i st))).
Proof.
  unfold delete, unique_ids. destruct (findIndex i (expenses st)); simpl;
    [apply NoDup_map_splice1|trivial].
Qed.

Lemma post_fresh_keeps_unique b st :
  unique_ids (expenses st) ->
  ~ In (b_id b) (map Server.id (expenses st)) ->
  unique_ids (expenses (fst (post parseFloat b st))).
Proof.
  unfold unique_ids. intros Hu Hfresh. rewrite post_cases.
  destruct (all_truthy b); simpl; [|exact Hu].
  rewrite map_app. simpl.
  apply NoDup_app_remove_l with (l := []). simpl.
  apply NoDup_Add with (a := b_id b) (l := map Server.id (expenses st)).
  - rewrite <- (app_nil_r (map Server.id (expenses st))) at 1.
    apply Add_app.
  - split; assumption.
Qed.

End ServerFacts.

(** ** The object store *)

Section ObjectStoreFacts.

Import ObjectStore.

Lemma key_lt_trans a b c : key_lt a b -> key_lt b c -> key_lt a c.
Proof.
  unfold key_lt. intros H1 H2.
  apply String_as_OT.cmp_lt. apply String_as_OT.cmp_lt in H1, H2.
  eapply String_as_OT.lt_trans; eassumption.
Qed.

Lemma compare_refl a : String.compare a a = Eq.
Proof. now apply String_as_OT.cmp_eq. Qed.

Lemma key_lt_neq a b : key_lt a b -> a <> b.
Proof.
  unfold key_lt. intros H ->. rewrite compare_refl in H. discriminate.
Qed.

Lemma compare_Gt_lt a b : String.compare a b = Gt -> key_lt b a.
Proof.
  unfold key_lt. intros H. rewrite String.compare_antisym, H. reflexivity.
Qed.

Lemma key_lt_eqb a b : key_lt a b -> (b =? a) = false.
Proof.
  intros H. apply String.eqb_neq. intros ->. now apply (key_lt_neq a a).
Qed.

Lemma ordered_tail x s : ordered (x :: s) -> ordered s.
Proof.
  unfold ordered. simpl. intros H. now apply StronglySorted_inv in H.
Qed.

Lemma ordered_head x s :
  ordered (x :: s) -> Forall (fun y => key_lt (id x) (id y)) s.
Proof.
  unfold ordered. simpl. intros H.
  apply StronglySorted_inv in H. destruct H as [_ Hall].
  rewrite Forall_map in Hall. exact Hall.
Qed.

Lemma ordered_cons x s :
  Forall (fun y => key_lt (id x) (id y)) s -> ordered s -> ordered (x :: s).
Proof.
  unfold ordered. simpl. intros Hall Hs. constructor; [exact Hs|].
  rewrite Forall_map. exact Hall.
Qed.

Lemma ordered_unique s : ordered s -> unique_ids s.
Proof.
  unfold unique_ids. induction s as [|x s IH]; intros H; simpl.
  - constructor.
  - constructor; [|apply IH; eapply ordered_tail; eassumption].
    intros Hin. apply in_map_iff in Hin. destruct Hin as [y [Hy Hin]].
    pose proof (ordered_head _ _ H) as Hall.
    rewrite Forall_forall in Hall. specialize (Hall y Hin).
    apply key_lt_neq in Hall. congruence.
Qed.

Lemma in_put y e s : In y (put e s) -> y = e \/ In y s.
Proof.
  induction s as [|x s IH]; simpl.
  - intros [<-|[]]; now left.
  - destruct (String.compare (id e) (id x)); simpl.
    + intros [<-|H]; [now left|right; now right].
    + intros [<-|[<-|H]]; [now left|right; now left|right; now right].
    + intros [<-|H]; [right; now left|].
      destruct (IH H) as [->|H']; [now left|right; now right].
Qed.

Lemma put_ordered e s : ordered s -> ordered (put e s).
Proof.
  induction s as [|x s IH]; intros H; simpl.
  - apply ordered_cons; constructor.
  - pose proof (ordered_head _ _ H) as Hall.
    pose proof (ordered_tail _ _ H) as Hs.
    destruct (String.compare (id e) (id x)) eqn:E.
    + apply String.compare_eq_iff in E.
      apply ordered_cons; [|exact Hs]. now rewrite E.
    + apply ordered_cons; [|exact H].
      constructor; [exact E|].
      eapply Forall_impl; [|exact Hall].
      intros y Hy. eapply key_lt_trans; eassumption.
    + apply ordered_cons; [|now apply IH].
      apply Forall_forall. intros y Hy.
      destruct (in_put _ _ _ Hy) as [->|Hin].
      * now apply compare_Gt_lt.
      * rewrite Forall_forall in Hall. now apply Hall.
Qed.

Lemma add_ordered e s s' : ordered s -> add e s = Some s' -> ordered s'.
Proof.
  unfold add. destruct (has_key (id e) s); [discriminate|].
  intros H [= <-]. now apply put_ordered.
Qed.

Lemma delete_ordered k s : ordered s -> ordered (delete k s).
Proof.
  unfold delete. induction s as [|x s IH]; intros H; simpl; [exact H|].
  pose proof (ordered_head _ _ H) as Hall.
  pose proof (ordered_tail _ _ H) as Hs.
  destruct (negb (id x =? k)); [|now apply IH].
  apply ordered_cons; [|now apply IH].
  apply Forall_forall. intros y Hy. apply filter_In in Hy.
  rewrite Forall_forall in Hall. now apply Hall.
Qed.


(** [put] of a record whose key is filtered out does not show in the
    filtered list. *)
Lemma filter_put (keep : expense -> bool) e s :
  keep e = false ->
  (forall x, id x = id e -> keep x = false) ->
  filter keep (put e s) = filter keep s.
Proof.
  intros He Hk. induction s as [|x s IH]; simpl.
  - now rewrite He.
  - destruct (String.compare (id e) (id x)) eqn:E; simpl.
    + apply String.compare_eq_iff in E.
      rewrite He, (Hk x (eq_sym E)). reflexivity.
    + now rewrite He.
    + now rewrite IH.
Qed.

(** In an ordered store, [put] of a record with the key of [x] takes the
    place of [x]. *)
Lemma put_in_place e x l1 l2 :
  ordered (l1 ++ x :: l2) -> id e = id x ->
  put e (l1 ++ x :: l2) = l1 ++ e :: l2.
Proof.
  intros H Hid. induction l1 as [|y l1 IH]; simpl.
  - now rewrite Hid, compare_refl.
  - simpl in H. pose proof (ordered_head _ _ H) as Hall.
    rewrite Forall_forall in Hall.
    assert (Hy : key_lt (id y) (id x)) by (apply Hall, in_elt).
    unfold key_lt in Hy. rewrite Hid, String.compare_antisym, Hy. simpl.
    f_equal. apply IH. eapply ordered_tail; eassumption.
Qed.

Lemma ordered_same_ids s s' : map id s = map id s' -> ordered s -> ordered s'.
Proof. unfold ordered. now intros <-. Qed.

End ObjectStoreFacts.

(** ** The remote service on typed records *)

Section RemoteFacts.

Variable parseFloat : value -> number.

(** [parseFloat] gives back the numbers it is given. *)
Hypothesis parseFloat_number : forall q, parseFloat (VNum (Num q)) = Num q.

Lemma wire_truthy b : Server.all_truthy (Remote.wire b) = Remote.accepted b.
Proof.
  unfold Server.all_truthy, Remote.accepted, Remote.wire. simpl.
  destruct (Remote.amount b); reflexivity.
Qed.

Lemma findIndex_embed i l :
  Server.findIndex i (map Remote.embed l) = Remote.findIndex i l.
Proof.
  induction l as [|e r IH]; simpl; [reflexivity|].
  destruct (Remote.id e =? i); [reflexivity|]. now rewrite IH.
Qed.

Lemma splice1_embed n l :
  Server.splice1 n (map Remote.embed l) = map Remote.embed (Remote.splice1 n l).
Proof.
  revert n; induction l as [|e r IH]; intros [|n]; simpl; try reflexivity.
  now rewrite IH.
Qed.

(** DELETE on typed records is [Server.delete] on the records embedded. *)
Lemma delete_refines i l d :
  Server.expenses (fst (Server.delete i (Server.mkState (map Remote.embed l) d)))
  = map Remote.embed (fst (Remote.delete i l))
  /\ Server.status (snd (Server.delete i (Server.mkState (map Remote.embed l) d)))
     = snd (Remote.delete i l).
Proof.
  unfold Server.delete, Remote.delete. simpl. rewrite findIndex_embed.
  destruct (Remote.findIndex i l); simpl; [|split; reflexivity].
  now rewrite splice1_embed.
Qed.

(** POST on typed records is [Server.post] on the body sent over the wire. *)
Lemma post_refines b l d :
  Remote.amount b <> NaN ->
  Server.expenses
    (fst (Server.post parseFloat (Remote.wire b)
                      (Server.mkState (map Remote.embed l) d)))
  = map Remote.embed (fst (Remote.post b l))
  /\ Server.status
       (snd (Server.post parseFloat (Remote.wire b)
                         (Server.mkState (map Remote.embed l) d)))
     = snd (Remote.post b l).
Proof.
  intros Hnum. rewrite post_cases, wire_truthy. unfold Remote.post.
  destruct (Remote.accepted b); simpl; [|split; reflexivity].
  split; [|reflexivity]. rewrite map_app. simpl. do 2 f_equal.
  unfold Remote.embed. f_equal.
  destruct (Remote.amount b); [contradiction|apply parseFloat_number].
Qed.

Lemma post_refines_NaN b l d :
  Remote.amount b = NaN ->
  fst (Server.post parseFloat (Remote.wire b)
                   (Server.mkState (map Remote.embed l) d))
  = Server.mkState (map Remote.embed (fst (Remote.post b l))) d.
Proof.
  intros Hnan. rewrite post_cases, wire_truthy. unfold Remote.post.
  assert (E : Remote.accepted b = false).
  { unfold Remote.accepted. rewrite Hnan. simpl.
    now rewrite andb_false_r. }
  now rewrite E.
Qed.

End RemoteFacts.


Lemma remote_splice1_subset n l x :
  In x (Remote.splice1 n l) -> In x l.
Proof.
  revert n; induction l as [|e r IH]; intros [|n]; simpl; try tauto.
  intros [H|H]; [now left|right; eauto].
Qed.


(** ** src/App.jsx: loading and merging *)

Lemma world_eta w :
  mkWorld (remote w) (local w) (shown w) (syncing w) (net w) (issued w) = w.
Proof. now destruct w. Qed.

Lemma resolves_S n w :
  Spec.resolves (S n) w ->
  exists rest, net w = true :: rest /\ firstn n rest = repeat true n.
Proof.
  unfold Spec.resolves. destruct (net w) as [|b rest]; simpl; [discriminate|].
  intros [= -> H]. now exists rest.
Qed.

Lemma send_resolves r w rest :
  net w = true :: rest ->
  send r w = (Ok tt, mkWorld (remote w) (local w) (shown w) (syncing w) rest
                             (issued w ++ [r])).
Proof. unfold send. now intros ->. Qed.

Lemma send_fails r w :
  hd false (net w) = false ->
  send r w = (Throw NetworkError,
              mkWorld (remote w) (local w) (shown w) (syncing w) (tl (net w))
                      (issued w ++ [r])).
Proof.
  unfold send. destruct (net w) as [|[|] rest]; simpl; try reflexivity.
  discriminate.
Qed.

Lemma for_of_updateExpense l w :
  for_of l Db.updateExpense w
  = (Ok tt, mkWorld (remote w) (Spec.written_back (local w) l) (shown w)
                    (syncing w) (net w) (issued w)).
Proof.
  revert w; induction l as [|e l IH]; intros w; simpl.
  - unfold ret. now rewrite world_eta.
  - unfold bind, Db.updateExpense, set_local. now rewrite IH.
Qed.

(** The view [loadExpenses] computes when the list comes back. *)
Lemma merged_is_working_set remoteList localList :
  map mark_synced remoteList
  ++ filter (fun p => negb (App.has (map id (map mark_synced remoteList)) (id p)))
            (filter (fun le => negb (synced le)) localList)
  = Spec.working_set remoteList localList.
Proof.
  unfold Spec.working_set. f_equal.
  induction localList as [|x l IH]; simpl; [reflexivity|].
  assert (E : App.has (map id (map mark_synced remoteList)) (id x)
              = existsb (fun r => Remote.id r =? id x) remoteList).
  { unfold App.has. clear. induction remoteList as [|r rl IH]; simpl;
      [reflexivity|now rewrite IH]. }
  destruct (synced x); simpl; [exact IH|].
  rewrite E. destruct (existsb _ remoteList); simpl; [exact IH|now rewrite IH].
Qed.

Lemma loadExpenses_resolves w rest :
  net w = true :: rest ->
  App.loadExpenses true w
  = (Ok tt,
     mkWorld (remote w)
             (Spec.written_back (local w) (map mark_synced (remote w)))
             (Spec.working_set (remote w) (local w))
             (syncing w) rest (issued w ++ [HttpGet])).
Proof.
  intros Hnet. unfold App.loadExpenses, try_catch, bind, fetch_get, bind.
  rewrite (send_resolves _ _ _ Hnet). simpl.
  unfold Db.getExpenses, setExpenses, ObjectStore.getAll. simpl.
  rewrite for_of_updateExpense. simpl.
  now rewrite merged_is_working_set.
Qed.

Lemma loadExpenses_unreachable w :
  hd false (net w) = false ->
  App.loadExpenses true w
  = (Ok tt, mkWorld (remote w) (local w) (local w) (syncing w) (tl (net w))
                    (issued w ++ [HttpGet])).
Proof.
  intros Hnet. unfold App.loadExpenses, try_catch, bind, fetch_get, bind.
  now rewrite (send_fails _ _ Hnet).
Qed.

Lemma loadExpenses_offline w :
  App.loadExpenses false w
  = (Ok tt, mkWorld (remote w) (local w) (local w) (syncing w) (net w)
                    (issued w)).
Proof. reflexivity. Qed.

(** Writing the remote records back does not touch the local records that
    the merge keeps. *)
Lemma residual_written_back remoteList s :
  let keep := fun l => negb (synced l)
                       && negb (existsb (fun r => Remote.id r =? id l) remoteList) in
  forall l, incl l remoteList ->
  filter keep (Spec.written_back s (map mark_synced l)) = filter keep s.
Proof.
  intros keep l. revert s. induction l as [|r l IH]; intros s Hincl; simpl;
    [reflexivity|].
  rewrite IH by (intros x Hx; apply Hincl; now right).
  apply filter_put; [reflexivity|].
  intros x Hx. unfold keep.
  assert (E : existsb (fun r0 => Remote.id r0 =? id x) remoteList = true).
  { apply existsb_exists. exists r. split; [apply Hincl; now left|].
    rewrite Hx. simpl. apply String.eqb_refl. }
  rewrite E. now rewrite andb_false_r.
Qed.

(** C2: when the app is online and the remote list comes back, the working
    set [loadExpenses] shows is the remote list, each record with its five
    properties and [synced = true], followed by the local records with
    [synced = false] whose id is the id of no remote record, in the order
    the store returns them. *)
Theorem loadExpenses_working_set w :
  Spec.resolves 1 w ->
  shown (snd (App.loadExpenses true w))
  = map (fun r => mkExpense (Remote.id r) (Remote.amount r)
                            (Remote.description r) (Remote.category r)
                            (Remote.date r) true)
        (remote w)
    ++ filter (fun l => negb (synced l)
                        && negb (existsb (fun r => Remote.id r =? id l) (remote w)))
              (ObjectStore.getAll (local w)).
Proof.
  intros H. destruct (resolves_S _ _ H) as [rest [Hnet _]].
  rewrite (loadExpenses_resolves _ _ Hnet). reflexivity.
Qed.

(** C1: with the app online and the remote list coming back both times, a
    second [loadExpenses] right after the first shows the working set the
    first one showed. *)
Theorem loadExpenses_idempotent w :
  Spec.resolves 2 w ->
  let w1 := snd (App.loadExpenses true w) in
  shown (snd (App.loadExpenses true w1)) = shown w1.
Proof.
  intros H. destruct (resolves_S _ _ H) as [rest [Hnet H1]].
  destruct rest as [|b rest']; [discriminate|]. simpl in H1.
  injection H1 as ->.
  simpl. rewrite (loadExpenses_resolves _ _ Hnet). simpl.
  rewrite loadExpenses_resolves with (rest := rest') by reflexivity. simpl.
  unfold Spec.working_set. f_equal.
  apply residual_written_back. apply incl_refl.
Qed.

Lemma loadExpenses_returns b w : fst (App.loadExpenses b w) = Ok tt.
Proof.
  destruct b; [|reflexivity].
  destruct (net w) as [|[|] rest] eqn:E.
  - now rewrite loadExpenses_unreachable by now rewrite E.
  - now rewrite (loadExpenses_resolves _ _ E).
  - now rewrite loadExpenses_unreachable by now rewrite E.
Qed.

(** ** src/App.jsx: deleting *)



Lemma handleDelete_unreachable exps i w :
  hd false (net w) = false ->
  App.handleDelete true exps i w
  = (Throw NetworkError,
     mkWorld (remote w) (local w) (shown w) (syncing w) (tl (net w))
             (issued w ++ [HttpDelete i])).
Proof.
  intros Hnet. unfold App.handleDelete, when, bind, fetch_delete, bind.
  now rewrite (send_fails _ _ Hnet).
Qed.


(** ** src/App.jsx: the push sweep *)

Abbreviation sweep_body :=
  (fun exp : expense =>
     when (negb (synced exp))
       (bind (fetch_post exp)
             (fun _ => Db.updateExpense (with_synced true exp)))).

Lemma with_synced_same b x : synced x = b -> with_synced b x = x.
Proof. intros <-. now destruct x. Qed.

Lemma for_of_cons {A} (x : A) l body w :
  for_of (x :: l) body w
  = match body x w with
    | (Ok _, w') => for_of l body w'
    | (Throw e, w') => (Throw e, w')
    end.
Proof. reflexivity. Qed.

Lemma fetch_post_resolves exp w rest :
  net w = true :: rest ->
  fetch_post exp w
  = (Ok (snd (Remote.post (body_of exp) (remote w))),
     mkWorld (fst (Remote.post (body_of exp) (remote w))) (local w) (shown w)
             (syncing w) rest (issued w ++ [HttpPost exp])).
Proof.
  intros Hnet. unfold fetch_post, bind. rewrite (send_resolves _ _ _ Hnet).
  simpl. now destruct (Remote.post (body_of exp) (remote w)).
Qed.

Lemma fetch_post_fails exp w :
  hd false (net w) = false ->
  fetch_post exp w
  = (Throw NetworkError,
     mkWorld (remote w) (local w) (shown w) (syncing w) (tl (net w))
             (issued w ++ [HttpPost exp])).
Proof.
  intros Hnet. unfold fetch_post, bind. now rewrite (send_fails _ _ Hnet).
Qed.

(** One turn of the loop of [syncExpenses]. *)
Lemma turn_synced x w : synced x = true -> sweep_body x w = (Ok tt, w).
Proof. intros Hs. cbv beta. now rewrite Hs. Qed.

Lemma turn_resolves x w rest :
  synced x = false -> net w = true :: rest ->
  sweep_body x w
  = (Ok tt,
     mkWorld (fst (Remote.post (body_of x) (remote w)))
             (ObjectStore.put (with_synced true x) (local w))
             (shown w) (syncing w) rest (issued w ++ [HttpPost x])).
Proof.
  intros Hs Hnet. cbv beta. rewrite Hs. unfold when, negb, bind.
  now rewrite (fetch_post_resolves _ _ _ Hnet).
Qed.

Lemma turn_fails x w :
  synced x = false -> hd false (net w) = false ->
  sweep_body x w
  = (Throw NetworkError,
     mkWorld (remote w) (local w) (shown w) (syncing w) (tl (net w))
             (issued w ++ [HttpPost x])).
Proof.
  intros Hs Hnet. cbv beta. rewrite Hs. unfold when, negb, bind.
  now rewrite (fetch_post_fails _ _ Hnet).
Qed.

Lemma pending_cons_synced x l :
  synced x = true -> Spec.pending (x :: l) = Spec.pending l.
Proof. unfold Spec.pending. simpl. now intros ->. Qed.

Lemma pending_cons_pending x l :
  synced x = false -> Spec.pending (x :: l) = x :: Spec.pending l.
Proof. unfold Spec.pending. simpl. now intros ->. Qed.

Lemma sweep_resolves todo : forall done w,
  local w = done ++ todo ->
  ObjectStore.ordered (done ++ todo) ->
  Spec.resolves (List.length (Spec.pending todo)) w ->
  for_of todo sweep_body w
  = (Ok tt,
     mkWorld (Spec.pushed (remote w) (Spec.pending todo))
             (done ++ map (with_synced true) todo)
             (shown w) (syncing w)
             (skipn (List.length (Spec.pending todo)) (net w))
             (issued w ++ map HttpPost (Spec.pending todo))).
Proof.
  induction todo as [|x todo IH]; intros done w Hl Hord Hres.
  - simpl. unfold ret. rewrite <- Hl, app_nil_r. now rewrite world_eta.
  - destruct (synced x) eqn:Hs; rewrite for_of_cons; cbv beta.
    + rewrite (turn_synced x w Hs).
      rewrite pending_cons_synced in * by exact Hs.
      rewrite (IH (done ++ [x]) w); rewrite <- ?app_assoc; auto.
      simpl. now rewrite (with_synced_same true x Hs).
    + rewrite pending_cons_pending in * by exact Hs.
      destruct (resolves_S _ _ Hres) as [rest [Hnet Hrest]].
      rewrite (turn_resolves x w rest Hs Hnet).
      rewrite Hl, put_in_place by auto.
      rewrite (IH (done ++ [with_synced true x])); simpl;
        rewrite <- ?app_assoc; simpl; auto.
      * rewrite Hnet. reflexivity.
      * eapply ordered_same_ids; [|exact Hord].
        rewrite !map_app. reflexivity.
Qed.

Lemma sweep_fails todo : forall j done w,
  local w = done ++ todo ->
  ObjectStore.ordered (done ++ todo) ->
  (j < List.length (Spec.pending todo))%nat ->
  Spec.fails_at j w ->
  exists w',
    for_of todo sweep_body w = (Throw NetworkError, w')
    /\ issued w' = issued w ++ map HttpPost (firstn (S j) (Spec.pending todo))
    /\ shown w' = shown w
    /\ syncing w' = syncing w
    /\ local w' = done ++ Spec.mark_first j todo.
Proof.
  induction todo as [|x todo IH]; intros j done w Hl Hord Hj Hfail.
  - simpl in Hj. lia.
  - destruct (synced x) eqn:Hs; rewrite for_of_cons; cbv beta.
    + rewrite (turn_synced x w Hs).
      rewrite pending_cons_synced in * by exact Hs.
      destruct (IH j (done ++ [x]) w) as [w' [Hrun [Hi [Hsh [Hsy Hlo]]]]];
        rewrite <- ?app_assoc; auto.
      exists w'. simpl. rewrite Hs, Hrun, Hlo, <- app_assoc. auto.
    + rewrite pending_cons_pending in * by exact Hs.
      destruct Hfail as [Hres Hhd]. destruct j as [|j].
      * simpl in Hhd. rewrite (turn_fails x w Hs Hhd).
        eexists; repeat split; simpl; auto. now rewrite Hs.
      * destruct (resolves_S _ _ Hres) as [rest [Hnet Hrest]].
        rewrite (turn_resolves x w rest Hs Hnet).
        rewrite Hl, put_in_place by auto.
        edestruct (IH j (done ++ [with_synced true x])) as
          [w' [Hrun [Hi [Hsh [Hsy Hlo]]]]]; cycle 4.
        { exists w'. rewrite Hrun. simpl in *.
          rewrite Hs, Hi, Hlo, <- !app_assoc. auto. }
        { simpl. now rewrite <- app_assoc. }
        { eapply ordered_same_ids; [|exact Hord].
          rewrite <- app_assoc, !map_app. reflexivity. }
        { simpl in Hj. lia. }
        { split; simpl; [exact Hrest|]. rewrite Hnet in Hhd. exact Hhd. }
Qed.

Lemma pending_mark_first l : forall j,
  Spec.pending (Spec.mark_first j l) = skipn j (Spec.pending l).
Proof.
  unfold Spec.pending.
  induction l as [|x l IH]; intros j; simpl; [now destruct j|].
  destruct (synced x) eqn:Hs; simpl.
  - rewrite Hs. simpl. apply IH.
  - destruct j as [|j]; simpl; [now rewrite Hs|apply IH].
Qed.

Lemma syncExpenses_unfold b w :
  App.syncExpenses b w
  = match for_of (local w) sweep_body (Spec.with_syncing true w) with
    | (Ok _, w2) =>
        (Ok tt, Spec.with_syncing false (snd (App.loadExpenses b w2)))
    | (Throw _, w2) => (Ok tt, Spec.with_syncing false w2)
    end.
Proof.
  unfold App.syncExpenses, bind at 1 2. unfold setSyncing at 1.
  unfold try_catch, bind at 1. unfold Db.getExpenses at 1.
  unfold ObjectStore.getAll. cbv beta iota.
  change (mkWorld (remote w) (local w) (shown w) true (net w) (issued w))
    with (Spec.with_syncing true w).
  change (local (Spec.with_syncing true w)) with (local w).
  unfold bind at 1.
  destruct (for_of (local w) _ (Spec.with_syncing true w)) as [[u|e] w2].
  - pose proof (loadExpenses_returns b w2) as Hr.
    destruct (App.loadExpenses b w2) as [r w3]. simpl in Hr. subst r.
    reflexivity.
  - reflexivity.
Qed.

(** C3, as the code has it.  On an ordered local store: when every create
    request of the sweep resolves, whatever the answers, a create request
    carrying the record has been issued for each local record with
    [synced = false], each of them is stored again marked synced, and
    [loadExpenses] is then run; when the request for the pending record
    after the first [j] fails in transport, the sweep stops there: the
    requests issued are those for the first [j + 1] pending records, the
    pending records from that one on are still pending in the store, and
    [loadExpenses] is not run, so the working set is the one before. *)
Theorem syncExpenses_sweep isOnline w :
  ObjectStore.ordered (local w) ->
  (Spec.resolves (List.length (Spec.pending (local w))) w ->
   App.syncExpenses isOnline w
   = (Ok tt,
      Spec.with_syncing false
        (snd (App.loadExpenses isOnline (Spec.after_sweep w)))))
  /\ (forall j,
        (j < List.length (Spec.pending (local w)))%nat ->
        Spec.fails_at j w ->
        let w' := snd (App.syncExpenses isOnline w) in
        issued w' = issued w ++ map HttpPost (firstn (S j) (Spec.pending (local w)))
        /\ shown w' = shown w
        /\ Spec.pending (local w') = skipn j (Spec.pending (local w))).
Proof.
  intros Hord. split.
  - intros Hres. rewrite syncExpenses_unfold.
    rewrite (sweep_resolves (local w) [] (Spec.with_syncing true w));
      auto.
  - intros j Hj Hfail. rewrite syncExpenses_unfold.
    destruct (sweep_fails (local w) j [] (Spec.with_syncing true w))
      as [w' [Hrun [Hi [Hsh [_ Hlo]]]]]; auto.
    rewrite Hrun. simpl in *. rewrite Hlo.
    repeat split; auto. apply pending_mark_first.
Qed.

(** ** src/App.jsx: the summaries *)

Lemma num_le_add_both a b x :
  num_le a b -> num_le num_zero x -> num_le (num_add a x) (num_add b x).
Proof.
  destruct a as [|a], b as [|b], x as [|x]; simpl; try tauto.
  intros Hab _. apply Qcplus_le_compat; [exact Hab|apply Qcle_refl].
Qed.

Lemma num_le_add_right a b x :
  num_le a b -> num_le num_zero x -> num_le a (num_add b x).
Proof.
  destruct a as [|a], b as [|b], x as [|x]; simpl; try tauto.
  intros Hab Hx. rewrite <- (Qcplus_0_r a).
  apply Qcplus_le_compat; assumption.
Qed.

Lemma num_le_trans a b c : num_le a b -> num_le b c -> num_le a c.
Proof.
  destruct a as [|a], b as [|b], c as [|c]; simpl; try tauto.
  apply Qcle_trans.
Qed.

Lemma num_le_zero_zero : num_le num_zero num_zero.
Proof. simpl. apply Qcle_refl. Qed.

(** Summing over fewer records, from a smaller start, gives less. *)
Lemma fold_filter_le (f g : expense -> bool) l :
  (forall x, f x = true -> g x = true) ->
  Spec.no_negative_amounts l ->
  forall a b, num_le num_zero a -> num_le a b ->
  num_le (fold_left (fun sum exp => num_add sum (amount exp)) (filter f l) a)
         (fold_left (fun sum exp => num_add sum (amount exp)) (filter g l) b).
Proof.
  intros Hfg Hpos. induction Hpos as [|x l Hx Hl IH]; intros a b Ha Hab; simpl.
  - exact Hab.
  - destruct (f x) eqn:Hf.
    + rewrite (Hfg x Hf). simpl. apply IH.
      * now apply num_le_add_right.
      * now apply num_le_add_both.
    + destruct (g x); simpl; apply IH; auto.
      now apply num_le_add_right.
Qed.

Section SummaryFacts.

Variable parse : string -> option Z.
Variable c : Date.clock.

Lemma start_name p : App.start c (Spec.name p) = Some (Spec.window_start c p).
Proof. destruct p; reflexivity. Qed.

Lemma ge_since_start p exp :
  Date.ge (parse (date exp)) (App.start c (Spec.name p))
  = Spec.since_start parse c p exp.
Proof. rewrite start_name. reflexivity. Qed.

Lemma since_start_weaker p q exp :
  (Spec.window_start c q <= Spec.window_start c p)%Z ->
  Spec.since_start parse c p exp = true -> Spec.since_start parse c q exp = true.
Proof.
  unfold Spec.since_start. destruct (parse (date exp)) as [t|]; [|discriminate].
  intros Hle Hp. apply Z.leb_le. apply Z.leb_le in Hp. lia.
Qed.

Lemma getSummary_total expenses p :
  App.getSummary parse c expenses (Spec.name p)
  = Spec.total (filter (Spec.since_start parse c p) expenses).
Proof.
  unfold App.getSummary, Spec.total. f_equal.
  apply filter_ext. intros exp. apply ge_since_start.
Qed.

(** For each of the three periods, [getSummary] is the sum of the amounts
    of the records whose date is a valid one at or after the start the code
    computes for the period; nothing is compared with now. *)
Lemma getSummary_since_start expenses p :
  App.getSummary parse c expenses (Spec.name p)
  = Spec.total (filter (Spec.since_start parse c p) expenses).
Proof. apply getSummary_total. Qed.

(** C9: on a working set with no negative amount, when the windows nest,
    the total of today is at most the total of the week, which is at most
    the total of the month. *)
Theorem getSummary_monotone expenses :
  Spec.no_negative_amounts expenses ->
  Spec.windows_nest c ->
  num_le (App.getSummary parse c expenses "today")
         (App.getSummary parse c expenses "week")
  /\ num_le (App.getSummary parse c expenses "week")
            (App.getSummary parse c expenses "month").
Proof.
  intros Hpos [Hmw Hwt].
  change "today" with (Spec.name Spec.Today).
  change "week" with (Spec.name Spec.Week).
  change "month" with (Spec.name Spec.Month).
  rewrite !getSummary_total. unfold Spec.total.
  split; apply fold_filter_le; auto using num_le_zero_zero;
    intros x; now apply since_start_weaker.
Qed.

End SummaryFacts.

(** ** Uniqueness of ids *)

Lemma keeps_order_ret {A} (a : A) : Spec.keeps_order (ret a).
Proof. intros w H. exact H. Qed.

Lemma keeps_order_bind {A B} (m : M A) (k : A -> M B) :
  Spec.keeps_order m -> (forall a, Spec.keeps_order (k a)) ->
  Spec.keeps_order (bind m k).
Proof.
  intros Hm Hk w H. unfold bind. specialize (Hm w H).
  destruct (m w) as [[a|e] w']; simpl in *; [now apply Hk|exact Hm].
Qed.

Lemma keeps_order_try_catch {A} (m : M A) (h : exn -> M A) :
  Spec.keeps_order m -> (forall e, Spec.keeps_order (h e)) ->
  Spec.keeps_order (try_catch m h).
Proof.
  intros Hm Hh w H. unfold try_catch. specialize (Hm w H).
  destruct (m w) as [[a|e] w']; simpl in *; [exact Hm|now apply Hh].
Qed.

Lemma keeps_order_when b (m : M unit) :
  Spec.keeps_order m -> Spec.keeps_order (when b m).
Proof. destruct b; [trivial|intros _; apply keeps_order_ret]. Qed.

Lemma keeps_order_for_of {A} (l : list A) (body : A -> M unit) :
  (forall x, Spec.keeps_order (body x)) -> Spec.keeps_order (for_of l body).
Proof.
  intros Hb. induction l as [|x l IH]; simpl.
  - apply keeps_order_ret.
  - apply keeps_order_bind; auto.
Qed.

Lemma keeps_order_send r : Spec.keeps_order (send r).
Proof. intros w H. unfold send. now destruct (net w) as [|[|] rest]. Qed.

Lemma keeps_order_setExpenses l : Spec.keeps_order (setExpenses l).
Proof. intros w H. exact H. Qed.

Lemma keeps_order_setSyncing b : Spec.keeps_order (setSyncing b).
Proof. intros w H. exact H. Qed.

Lemma keeps_order_fetch_get : Spec.keeps_order fetch_get.
Proof.
  apply keeps_order_bind; [apply keeps_order_send|]. intros _ w H. exact H.
Qed.

Lemma keeps_order_fetch_post exp : Spec.keeps_order (fetch_post exp).
Proof.
  apply keeps_order_bind; [apply keeps_order_send|]. intros _ w H.
  now destruct (Remote.post (body_of exp) (remote w)).
Qed.

Lemma keeps_order_fetch_delete i : Spec.keeps_order (fetch_delete i).
Proof.
  apply keeps_order_bind; [apply keeps_order_send|]. intros _ w H.
  now destruct (Remote.delete i (remote w)).
Qed.

Lemma keeps_order_getExpenses : Spec.keeps_order Db.getExpenses.
Proof. intros w H. exact H. Qed.

Lemma keeps_order_addExpense e : Spec.keeps_order (Db.addExpense e).
Proof.
  intros w H. unfold Db.addExpense.
  destruct (ObjectStore.add e (local w)) as [s|] eqn:E; simpl; [|exact H].
  eapply add_ordered; eassumption.
Qed.

Lemma keeps_order_updateExpense e : Spec.keeps_order (Db.updateExpense e).
Proof. intros w H. simpl. now apply put_ordered. Qed.

Lemma keeps_order_deleteExpense i : Spec.keeps_order (Db.deleteExpense i).
Proof. intros w H. simpl. now apply delete_ordered. Qed.

Create HintDb order discriminated.

#[local] Hint Resolve keeps_order_ret keeps_order_send keeps_order_setExpenses
  keeps_order_setSyncing keeps_order_fetch_get keeps_order_fetch_post
  keeps_order_fetch_delete keeps_order_getExpenses keeps_order_addExpense
  keeps_order_updateExpense keeps_order_deleteExpense : order.

Ltac order_step :=
  first [ solve [auto with order]
        | apply keeps_order_bind; [|intro]
        | apply keeps_order_try_catch; [|intro]
        | apply keeps_order_when
        | apply keeps_order_for_of; intro ].

Lemma keeps_order_loadExpenses b : Spec.keeps_order (App.loadExpenses b).
Proof. unfold App.loadExpenses. destruct b; repeat order_step. Qed.

Lemma keeps_order_syncExpenses b : Spec.keeps_order (App.syncExpenses b).
Proof.
  pose proof (keeps_order_loadExpenses b).
  unfold App.syncExpenses. repeat order_step.
Qed.

Lemma keeps_order_handleDelete b exps i :
  Spec.keeps_order (App.handleDelete b exps i).
Proof. unfold App.handleDelete. repeat order_step. Qed.

(** C4, as the code has it.  In the local store the ids are all different
    and stay so: the keys of the store are in strictly ascending order, and
    [addExpense], [updateExpense], [deleteExpense], [loadExpenses],
    [syncExpenses] and [handleDelete] keep them so.  On the server PUT and
    DELETE keep the ids of the list all different, and so does a POST whose
    id is the id of no record of the list.  A POST that is accepted (its
    five properties truthy) leaves the ids all different exactly when they
    were so and its id was the id of no record: when a record has the id
    already, the id is appended a second time.  A POST that is rejected
    leaves the state as it was. *)
Theorem ids_stay_unique (parseFloat : value -> number) :
  (forall s, ObjectStore.ordered s -> ObjectStore.unique_ids s)
  /\ (forall e, Spec.keeps_order (Db.addExpense e))
  /\ (forall e, Spec.keeps_order (Db.updateExpense e))
  /\ (forall i, Spec.keeps_order (Db.deleteExpense i))
  /\ (forall b, Spec.keeps_order (App.loadExpenses b))
  /\ (forall b, Spec.keeps_order (App.syncExpenses b))
  /\ (forall b exps i, Spec.keeps_order (App.handleDelete b exps i))
  /\ (forall i b st,
        Server.unique_ids (Server.expenses st) ->
        Server.unique_ids (Server.expenses (fst (Server.put parseFloat i b st))))
  /\ (forall i st,
        Server.unique_ids (Server.expenses st) ->
        Server.unique_ids (Server.expenses (fst (Server.delete i st))))
  /\ (forall b st,
        Server.unique_ids (Server.expenses st) ->
        ~ In (Server.b_id b) (map Server.id (Server.expenses st)) ->
        Server.unique_ids (Server.expenses (fst (Server.post parseFloat b st))))
  /\ (forall b st,
        Server.all_truthy b = true ->
        (Server.unique_ids (Server.expenses (fst (Server.post parseFloat b st)))
         <-> Server.unique_ids (Server.expenses st)
             /\ ~ In (Server.b_id b) (map Server.id (Server.expenses st))))
  /\ (forall b st,
        Server.all_truthy b = true ->
        In (Server.b_id b) (map Server.id (Server.expenses st)) ->
        map Server.id (Server.expenses (fst (Server.post parseFloat b st)))
        = map Server.id (Server.expenses st) ++ [Server.b_id b]
        /\ ~ Server.unique_ids
              (Server.expenses (fst (Server.post parseFloat b st))))
  /\ (forall b st,
        Server.all_truthy b = false ->
        fst (Server.post parseFloat b st) = st).
Proof.
  assert (Hids : forall b st,
            Server.all_truthy b = true ->
            map Server.id (Server.expenses (fst (Server.post parseFloat b st)))
            = map Server.id (Server.expenses st) ++ [Server.b_id b]).
  { intros b st Ht. rewrite post_cases, Ht. simpl. now rewrite map_app. }
  assert (Hiff : forall b st,
            Server.all_truthy b = true ->
            (Server.unique_ids (Server.expenses (fst (Server.post parseFloat b st)))
             <-> Server.unique_ids (Server.expenses st)
                 /\ ~ In (Server.b_id b) (map Server.id (Server.expenses st)))).
  { intros b st Ht. unfold Server.unique_ids. rewrite (Hids b st Ht).
    apply NoDup_Add.
    rewrite <- (app_nil_r (map Server.id (Server.expenses st))) at 1.
    apply Add_app. }
  repeat match goal with |- _ /\ _ => split end.
  - apply ordered_unique.
  - apply keeps_order_addExpense.
  - apply keeps_order_updateExpense.
  - apply keeps_order_deleteExpense.
  - apply keeps_order_loadExpenses.
  - apply keeps_order_syncExpenses.
  - apply keeps_order_handleDelete.
  - apply put_keeps_unique.
  - apply delete_keeps_unique.
  - apply post_fresh_keeps_unique.
  - exact Hiff.
  - intros b st Ht Hin. split; [now apply Hids|].
    intros Hu. apply (Hiff b st Ht) in Hu. tauto.
  - intros b st Hf. now rewrite post_cases, Hf.
Qed.

(** * The properties on concrete runs *)

(** C1 on a remote record next to a pending local one. *)
Lemma loadExpenses_idempotent_witness :
  shown (snd (App.loadExpenses true (snd (App.loadExpenses true Example.one_each))))
  = shown (snd (App.loadExpenses true Example.one_each)).
Proof. apply (loadExpenses_idempotent Example.one_each). reflexivity. Defined.

(** C2 on the same world: the remote record first, then the pending one. *)
Lemma loadExpenses_working_set_witness :
  shown (snd (App.loadExpenses true Example.one_each))
  = [mkExpense "1" Example.twelve_fifty "Coffee" "Food" "2024-01-15" true;
     mkExpense "2" Example.fifteen "Bus" "Transport" "2024-01-10" false].
Proof.
  rewrite (loadExpenses_working_set Example.one_each); reflexivity.
Defined.

(** C3 where every request resolves: both records are pushed, then the
    list is loaded. *)
Lemma syncExpenses_sweep_witness :
  App.syncExpenses true Example.two_pending
  = (Ok tt,
     Spec.with_syncing false
       (snd (App.loadExpenses true (Spec.after_sweep Example.two_pending)))).
Proof.
  apply (syncExpenses_sweep true Example.two_pending).
  - repeat constructor.
  - reflexivity.
Defined.

(** C3 fails as stated: the first create request does not get through.  No
    create request is issued for the second pending record, both records
    are still pending in the store, no list is fetched and the working set
    is the one before, although the later requests would have resolved. *)
Lemma syncExpenses_stops_at_failure :
  let w' := snd (App.syncExpenses true Example.first_request_fails) in
  issued w' = [HttpPost Example.coffee]
  /\ Spec.pending (local w') = [Example.coffee; Example.bus]
  /\ shown w' = shown Example.first_request_fails
  /\ net w' = [true; true].
Proof. repeat split. Qed.

(** C4 fails as stated: the same create request made twice leaves two
    records with the id ["1"] on the server. *)
Lemma post_appends_duplicate_id :
  let st2 := fst (Server.post parseFloat_num Example.coffee_body Example.one_coffee) in
  Server.unique_ids (Server.expenses Example.one_coffee)
  /\ map Server.id (Server.expenses st2) = [VStr "1"; VStr "1"]
  /\ ~ Server.unique_ids (Server.expenses st2).
Proof.
  repeat split.
  - repeat constructor. simpl. tauto.
  - unfold Server.unique_ids. simpl. intros H.
    apply NoDup_cons_iff in H. destruct H as [H _]. apply H. now left.
Qed.


(** C6 fails as stated: a body in which the five properties are present,
    the description being the empty string, is answered 400. *)
Lemma post_rejects_blank_description :
  ~ Server.any_missing Example.blank_description
  /\ Server.post parseFloat_num Example.blank_description Example.empty_server
     = (Example.empty_server,
        Server.mkResponse 400 (Server.PError "All fields are required")).
Proof.
  split; [|reflexivity].
  unfold Server.any_missing, Server.missing. simpl.
  intros [H|[H|[H|[H|H]]]]; discriminate.
Qed.

(** C6 on a body with the five properties truthy. *)
Lemma post_created_iff_all_truthy_witness :
  Server.status
    (snd (Server.post parseFloat_num Example.coffee_body Example.empty_server))
  = 201%Z.
Proof.
  apply (post_created_iff_all_truthy parseFloat_num Example.coffee_body
           Example.empty_server).
  reflexivity.
Defined.

(** C7 on the scenario: PUT /expenses/999 on a list without that id. *)
Lemma put_unknown_id_not_found_witness :
  Server.put parseFloat_num "999" Example.coffee_body Example.one_coffee
  = (Example.one_coffee,
     Server.mkResponse 404 (Server.PError "Expense not found")).
Proof.
  apply (put_unknown_id_not_found parseFloat_num "999" Example.coffee_body
           Example.one_coffee).
  intros e [<-|[]]. discriminate.
Defined.

(** C10 on a DELETE of an id that is not there. *)
Lemma client_error_leaves_state_witness :
  fst (Server.handle parseFloat_num (Server.DELETE "999") Example.one_coffee)
  = Example.one_coffee.
Proof.
  apply (client_error_leaves_state parseFloat_num (Server.DELETE "999")
           Example.one_coffee).
  right. reflexivity.
Defined.

(** C8 on the code: at noon UTC of 2024-01-15, in a zone that is UTC all
    year, the one record of the working set is dated 2024-02-01, after
    now.  [getSummary] counts its amount, 15, in the total of today, of the
    week and of the month, where the sum over each window ending now is
    0. *)
Lemma getSummary_counts_later_dates :
  Date.parse_date_only (date Example.rent_next_month) = Some 1706745600000%Z
  /\ (Date.now Example.noon < 1706745600000)%Z
  /\ App.getSummary Date.parse_date_only Example.noon
                    [Example.rent_next_month] "today"
     = Example.fifteen
  /\ App.getSummary Date.parse_date_only Example.noon
                    [Example.rent_next_month] "week"
     = Example.fifteen
  /\ App.getSummary Date.parse_date_only Example.noon
                    [Example.rent_next_month] "month"
     = Example.fifteen
  /\ Spec.windowed_summary Date.parse_date_only Example.noon
                           [Example.rent_next_month] Spec.Today
     = num_zero
  /\ Spec.windowed_summary Date.parse_date_only Example.noon
                           [Example.rent_next_month] Spec.Week
     = num_zero
  /\ Spec.windowed_summary Date.parse_date_only Example.noon
                           [Example.rent_next_month] Spec.Month
     = num_zero.
Proof. repeat split. Qed.

(** C9 at noon of 2024-01-15, where the windows nest. *)
Lemma getSummary_monotone_witness :
  num_le (App.getSummary Date.parse_date_only Example.noon
                         [Example.coffee; Example.bus] "today")
         (App.getSummary Date.parse_date_only Example.noon
                         [Example.coffee; Example.bus] "week")
  /\ num_le (App.getSummary Date.parse_date_only Example.noon
                            [Example.coffee; Example.bus] "week")
            (App.getSummary Date.parse_date_only Example.noon
                            [Example.coffee; Example.bus] "month").
Proof.
  apply (getSummary_monotone Date.parse_date_only Example.noon
           [Example.coffee; Example.bus]).
  - repeat constructor; simpl; unfold Qcle, Qle; simpl; lia.
  - split; vm_compute; discriminate.
Defined.

(** * More of server.js *)

Section ServerRequests.

Variable parseFloat : value -> number.

Import Server.

Lemma strict_eq_str_true v i : strict_eq_str v i = true <-> v = VStr i.
Proof.
  destruct v; simpl; try (split; [discriminate|intros [=]]).
  rewrite String.eqb_eq. split; [now intros ->|now intros [= ->]].
Qed.

Lemma known_findIndex i l : known i l <-> findIndex i l <> None.
Proof.
  unfold known. split.
  - intros [e [Hin Hid]] Hnone.
    apply (proj1 (findIndex_None i l) Hnone e Hin Hid).
  - intros Hsome. destruct (findIndex i l) as [n|] eqn:E; [|congruence].
    destruct (findIndex_Some_id _ _ _ E) as [e [Hn Hid]].
    exists e. split; [eapply nth_error_In; eassumption|exact Hid].
Qed.

Lemma not_known_findIndex i l : ~ known i l <-> findIndex i l = None.
Proof.
  rewrite known_findIndex. destruct (findIndex i l); split.
  - intros H. exfalso. apply H. discriminate.
  - discriminate.
  - reflexivity.
  - intros _ H. now apply H.
Qed.

(** Where [findIndex] points: the first record that has the id. *)
Lemma findIndex_split i l n :
  findIndex i l = Some n ->
  exists before x after,
    l = before ++ x :: after
    /\ List.length before = n
    /\ Server.id x = VStr i
    /\ (forall y, In y before -> Server.id y <> VStr i)
    /\ (forall e, assign n e l = before ++ e :: after)
    /\ splice1 n l = before ++ after.
Proof.
  revert n. induction l as [|a l IH]; intros n; simpl; [discriminate|].
  destruct (strict_eq_str (Server.id a) i) eqn:E.
  - intros [= <-]. exists [], a, l. apply strict_eq_str_true in E.
    repeat split; auto.
  - destruct (findIndex i l) as [m|]; simpl; [|discriminate].
    intros [= <-].
    destruct (IH m eq_refl) as [before [x [after [Hl [Hlen [Hid [Hb [Ha Hs]]]]]]]].
    exists (a :: before), x, after. simpl.
    repeat split; auto.
    + now rewrite Hl at 1.
    + intros y [<-|Hy]; [|now apply Hb].
      intros Hid'. apply strict_eq_str_true in Hid'. congruence.
    + intros e. now rewrite Ha.
    + now rewrite Hs.
Qed.

(** X1: A PUT on an id that is known, with the four properties truthy, is
    answered 200 with the new record; the new record takes the place of the
    first record that has the id, every other record stays where it was,
    and the new list is handed to the disk once. *)
Theorem put_replaces_first i b st :
  known i (expenses st) ->
  put_truthy b = true ->
  let updated :=
    Server.mkExpense (VStr i) (parseFloat (b_amount b)) (b_description b)
                     (b_category b) (b_date b) in
  exists before x after,
    expenses st = before ++ x :: after
    /\ Server.id x = VStr i
    /\ (forall y, In y before -> Server.id y <> VStr i)
    /\ put parseFloat i b st
       = (mkState (before ++ updated :: after)
                  (disk st ++ [before ++ updated :: after]),
          mkResponse 200 (PExpense updated)).
Proof.
  intros Hk Ht updated. apply known_findIndex in Hk.
  destruct (findIndex i (expenses st)) as [n|] eqn:E; [|congruence].
  destruct (findIndex_split _ _ _ E)
    as [before [x [after [Hl [_ [Hid [Hb [Ha _]]]]]]]].
  exists before, x, after. repeat split; auto.
  rewrite put_cases, E. unfold put_truthy in Ht. rewrite Ht.
  cbv zeta. now rewrite Ha.
Qed.

(** X2: the status of a PUT: 404 exactly when the id is unknown, 400 exactly
    when it is known and one of the four properties is falsy, 200 exactly
    when it is known and the four are truthy.  The id of the body is never
    read. *)
Theorem put_status i b st :
  (status (snd (put parseFloat i b st)) = 404%Z <-> ~ known i (expenses st))
  /\ (status (snd (put parseFloat i b st)) = 400%Z
      <-> known i (expenses st) /\ put_truthy b = false)
  /\ (status (snd (put parseFloat i b st)) = 200%Z
      <-> known i (expenses st) /\ put_truthy b = true)
  /\ (forall v,
        put parseFloat i
            (mkBody v (b_amount b) (b_description b) (b_category b) (b_date b)) st
        = put parseFloat i b st).
Proof.
  rewrite not_known_findIndex, known_findIndex, put_cases.
  unfold put_truthy.
  destruct (findIndex i (expenses st)) as [n|] eqn:E.
  - destruct (truthy (b_amount b) && truthy (b_description b)
              && truthy (b_category b) && truthy (b_date b)) eqn:T; simpl;
      repeat split; try discriminate; try congruence;
      try (intros [_ H]; discriminate);
      try (intros v; rewrite !put_cases, E; simpl; now rewrite T).
  - simpl. repeat split; try discriminate; try congruence;
      try (intros [H _]; congruence).
    intros v. now rewrite !put_cases, E.
Qed.

(** X3: A DELETE on an id that is known is answered 204 with no body; the
    first record that has the id is dropped, every other record stays, in
    order, and the new list is handed to the disk once. *)
Theorem delete_removes_first i st :
  known i (expenses st) ->
  exists before x after,
    expenses st = before ++ x :: after
    /\ Server.id x = VStr i
    /\ (forall y, In y before -> Server.id y <> VStr i)
    /\ delete i st
       = (mkState (before ++ after) (disk st ++ [before ++ after]),
          mkResponse 204 PEmpty).
Proof.
  intros Hk. apply known_findIndex in Hk.
  destruct (findIndex i (expenses st)) as [n|] eqn:E; [|congruence].
  destruct (findIndex_split _ _ _ E)
    as [before [x [after [Hl [_ [Hid [Hb [_ Hs]]]]]]]].
  exists before, x, after. repeat split; auto.
  unfold delete, saveToDisk. rewrite E. simpl. now rewrite Hs.
Qed.

Lemma findIndex_app_fresh i l x :
  (forall y, In y l -> Server.id y <> VStr i) -> Server.id x = VStr i ->
  findIndex i (l ++ [x]) = Some (List.length l).
Proof.
  intros Hl Hx. induction l as [|a l IH]; simpl.
  - rewrite Hx. simpl. now rewrite String.eqb_refl.
  - destruct (strict_eq_str (Server.id a) i) eqn:E.
    + apply strict_eq_str_true in E. exfalso. apply (Hl a); [now left|exact E].
    + rewrite IH; [reflexivity|]. intros y Hy. apply Hl. now right.
Qed.

Lemma splice1_app_last l x : splice1 (List.length l) (l ++ [x]) = l.
Proof. induction l as [|a l IH]; simpl; [reflexivity|now rewrite IH]. Qed.

(** X4: A record created under an id that was not known and then deleted under
    that id leaves the list as it was before the two requests. *)
Theorem post_then_delete s b st :
  b_id b = VStr s ->
  all_truthy b = true ->
  ~ known s (expenses st) ->
  expenses (fst (delete s (fst (post parseFloat b st)))) = expenses st
  /\ status (snd (delete s (fst (post parseFloat b st)))) = 204%Z.
Proof.
  intros Hid Ht Hfresh. rewrite post_cases, Ht. cbv zeta. simpl fst.
  unfold delete. simpl expenses.
  rewrite findIndex_app_fresh.
  - simpl. split; [apply splice1_app_last|reflexivity].
  - intros y Hy Hy'. apply Hfresh. now exists y.
  - exact Hid.
Qed.

Lemma handle_written r st :
  fst (handle parseFloat r st) = st
  \/ disk (fst (handle parseFloat r st))
     = disk st ++ [expenses (fst (handle parseFloat r st))].
Proof.
  destruct r as [|b|i b|i]; simpl.
  - now left.
  - rewrite post_cases. destruct (all_truthy b); [right|left]; reflexivity.
  - rewrite put_cases. destruct (findIndex i (expenses st)); [|now left].
    destruct (truthy (b_amount b) && truthy (b_description b)
              && truthy (b_category b) && truthy (b_date b));
      [right|left]; reflexivity.
  - unfold delete. destruct (findIndex i (expenses st)); [right|left];
      reflexivity.
Qed.

Lemma run_cons r rs st :
  run parseFloat (r :: rs) st
  = (fst (run parseFloat rs (fst (handle parseFloat r st))),
     snd (handle parseFloat r st)
     :: snd (run parseFloat rs (fst (handle parseFloat r st)))).
Proof.
  simpl. destruct (handle parseFloat r st) as [st1 a]. simpl.
  now destruct (run parseFloat rs st1).
Qed.

(** X5: whatever requests are served, in whatever order, the last array handed
    to the disk is the list in memory, when it was so at the start. *)
Theorem run_mirrored rs st :
  mirrored st -> mirrored (fst (run parseFloat rs st)).
Proof.
  revert st. induction rs as [|r rs IH]; intros st H; [exact H|].
  rewrite run_cons. simpl. apply IH.
  destruct (handle_written r st) as [-> | Hw]; [exact H|].
  right. eexists. exact Hw.
Qed.

Lemma handle_required r st :
  Forall required_truthy (expenses st) ->
  Forall required_truthy (expenses (fst (handle parseFloat r st))).
Proof.
  intros H. destruct r as [|b|i b|i]; simpl.
  - exact H.
  - rewrite post_cases. destruct (all_truthy b) eqn:T; [|exact H].
    simpl. apply Forall_app. split; [exact H|]. constructor; [|constructor].
    unfold all_truthy in T. unfold required_truthy. simpl.
    repeat (apply andb_prop in T; destruct T as [T ?]). auto.
  - rewrite put_cases. destruct (findIndex i (expenses st)) as [n|] eqn:E;
      [|exact H].
    destruct (truthy (b_amount b) && truthy (b_description b)
              && truthy (b_category b) && truthy (b_date b)) eqn:T; [|exact H].
    simpl.
    destruct (findIndex_split _ _ _ E)
      as [before [x [after [Hl [_ [Hid [_ [Ha _]]]]]]]].
    rewrite Ha. rewrite Hl in H. apply Forall_app in H. destruct H as [Hb Hx].
    apply Forall_cons_iff in Hx. destruct Hx as [Hx Hafter].
    apply Forall_app. split; [exact Hb|]. constructor; [|exact Hafter].
    unfold required_truthy in *. simpl.
    assert (Hi : negb (i =? "") = true)
      by (destruct Hx as [Hx _]; rewrite Hid in Hx; exact Hx).
    repeat (apply andb_prop in T; destruct T as [T ?]). tauto.
  - unfold delete. destruct (findIndex i (expenses st)) as [n|] eqn:E;
      [|exact H].
    simpl.
    destruct (findIndex_split _ _ _ E)
      as [before [x [after [Hl [_ [_ [_ [_ Hs]]]]]]]].
    rewrite Hs. rewrite Hl in H. apply Forall_app in H. destruct H as [Hb Hx].
    apply Forall_cons_iff in Hx. apply Forall_app. tauto.
Qed.

(** X6: whatever requests are served, every record of the list keeps a truthy
    id, description, category and date, when it was so at the start. *)
Theorem run_keeps_required rs st :
  Forall required_truthy (expenses st) ->
  Forall required_truthy (expenses (fst (run parseFloat rs st))).
Proof.
  revert st. induction rs as [|r rs IH]; intros st H; [exact H|].
  rewrite run_cons. simpl. apply IH. now apply handle_required.
Qed.

(** X7: A request changes the number of records by one at most: one more on a
    201, one less on a 204, as many on every other answer. *)
Theorem handle_length r st :
  let st' := fst (handle parseFloat r st) in
  let code := status (snd (handle parseFloat r st)) in
  (code = 201%Z /\ List.length (expenses st') = S (List.length (expenses st)))
  \/ (code = 204%Z /\ S (List.length (expenses st')) = List.length (expenses st))
  \/ (code <> 201%Z /\ code <> 204%Z
      /\ List.length (expenses st') = List.length (expenses st)).
Proof.
  destruct r as [|b|i b|i]; simpl.
  - right; right. repeat split; discriminate.
  - rewrite post_cases. destruct (all_truthy b); simpl.
    + left. split; [reflexivity|]. rewrite length_app. simpl. lia.
    + right; right. repeat split; discriminate.
  - rewrite put_cases. destruct (findIndex i (expenses st)) as [n|] eqn:E;
      [|right; right; repeat split; discriminate].
    destruct (truthy (b_amount b) && truthy (b_description b)
              && truthy (b_category b) && truthy (b_date b));
      [|right; right; repeat split; discriminate].
    simpl. right; right. repeat split; try discriminate.
    destruct (findIndex_split _ _ _ E)
      as [before [x [after [Hl [_ [_ [_ [Ha _]]]]]]]].
    rewrite Ha, Hl, !length_app. reflexivity.
  - unfold delete. destruct (findIndex i (expenses st)) as [n|] eqn:E;
      [|right; right; repeat split; discriminate].
    simpl. right; left. split; [reflexivity|].
    destruct (findIndex_split _ _ _ E)
      as [before [x [after [Hl [_ [_ [_ [_ Hs]]]]]]]].
    rewrite Hs, Hl, !length_app. simpl. lia.
Qed.

End ServerRequests.

(** * More of src/db.js *)

Lemma has_key_present k s :
  ObjectStore.has_key k s = true <-> ObjectStore.present k s.
Proof.
  unfold ObjectStore.has_key, ObjectStore.present.
  rewrite existsb_exists, in_map_iff.
  split; intros [x [H1 H2]]; exists x.
  - apply String.eqb_eq in H2. tauto.
  - rewrite String.eqb_eq. tauto.
Qed.

Lemma in_put_self e s : In e (ObjectStore.put e s).
Proof.
  induction s as [|x s IH]; simpl; [now left|].
  destruct (String.compare (id e) (id x)); simpl; auto.
Qed.

Lemma in_put_other e x s :
  In x s -> id x <> id e -> In x (ObjectStore.put e s).
Proof.
  intros Hin Hne. induction s as [|y s IH]; simpl; [contradiction|].
  destruct (String.compare (id e) (id y)) eqn:E; simpl.
  - destruct Hin as [<-|Hin]; [|now right].
    apply String_as_OT.cmp_eq in E. congruence.
  - now right.
  - destruct Hin as [<-|Hin]; [now left|right; now apply IH].
Qed.

Lemma Forall_put (P : expense -> Prop) e s :
  Forall P s -> P e -> Forall P (ObjectStore.put e s).
Proof.
  intros Hs He. apply Forall_forall. intros x Hx.
  destruct (in_put _ _ _ Hx) as [->|Hin]; [exact He|].
  rewrite Forall_forall in Hs. now apply Hs.
Qed.

Lemma delete_absent_same k s :
  ~ ObjectStore.present k s -> ObjectStore.delete k s = s.
Proof.
  unfold ObjectStore.present, ObjectStore.delete.
  induction s as [|x s IH]; simpl; [reflexivity|].
  intros H. destruct (id x =? k) eqn:E.
  - apply String.eqb_eq in E. exfalso. apply H. now left.
  - simpl. rewrite IH; [reflexivity|]. intros Hin. apply H. now right.
Qed.

(** X8: [addExpense] throws a ConstraintError, and changes nothing, exactly
    when the store has a record with the id; otherwise it returns, the
    record is in the store, and a second [addExpense] under the same id
    throws. *)
Theorem addExpense_rejects_known_id e w :
  (ObjectStore.present (id e) (local w) ->
   Db.addExpense e w = (Throw ConstraintError, w))
  /\ (~ ObjectStore.present (id e) (local w) ->
      fst (Db.addExpense e w) = Ok tt
      /\ In e (local (snd (Db.addExpense e w)))
      /\ forall e', id e' = id e ->
           fst (Db.addExpense e' (snd (Db.addExpense e w)))
           = Throw ConstraintError).
Proof.
  unfold Db.addExpense, ObjectStore.add. split.
  - intros H. apply has_key_present in H. now rewrite H.
  - intros H. destruct (ObjectStore.has_key (id e) (local w)) eqn:E;
      [apply has_key_present in E; contradiction|].
    simpl. repeat split; [apply in_put_self|].
    intros e' He'.
    assert (Hp : ObjectStore.has_key (id e') (ObjectStore.put e (local w)) = true).
    { apply has_key_present. unfold ObjectStore.present. rewrite He'.
      apply in_map. apply in_put_self. }
    now rewrite Hp.
Qed.

Lemma filter_key_put e s :
  ObjectStore.ordered s ->
  filter (fun x => id x =? id e) (ObjectStore.put e s) = [e].
Proof.
  induction s as [|x s IH]; intros H; simpl.
  - now rewrite String.eqb_refl.
  - pose proof (ordered_head _ _ H) as Hall.
    pose proof (ordered_tail _ _ H) as Hs.
    assert (Hgt : forall k l, Forall (fun y => ObjectStore.key_lt k (id y)) l ->
                              filter (fun y => id y =? k) l = []).
    { intros k l Hl. induction Hl as [|y l Hy _ IHl]; simpl; [reflexivity|].
      now rewrite (key_lt_eqb _ _ Hy). }
    destruct (String.compare (id e) (id x)) eqn:E; simpl.
    + apply String_as_OT.cmp_eq in E. rewrite String.eqb_refl.
      rewrite Hgt; [reflexivity|]. now rewrite E.
    + rewrite String.eqb_refl. f_equal.
      change (filter (fun y => id y =? id e) (x :: s) = []).
      apply Hgt. constructor; [exact E|].
      eapply Forall_impl; [|exact Hall].
      intros y Hy. eapply key_lt_trans; eassumption.
    + apply compare_Gt_lt in E. rewrite String.eqb_sym.
      rewrite (key_lt_eqb _ _ E). now apply IH.
Qed.

(** X9: after [updateExpense] of [e] on an ordered store, [getExpenses] returns
    [e] as the one record with its id, and the records with another id as
    they were, in the order they had. *)
Theorem updateExpense_then_getExpenses e w :
  ObjectStore.ordered (local w) ->
  exists l,
    bind (Db.updateExpense e) (fun _ => Db.getExpenses) w
    = (Ok l, snd (Db.updateExpense e w))
    /\ filter (fun x => id x =? id e) l = [e]
    /\ filter (fun x => negb (id x =? id e)) l
       = filter (fun x => negb (id x =? id e)) (local w).
Proof.
  intros H. exists (ObjectStore.put e (local w)).
  repeat split.
  - now apply filter_key_put.
  - apply filter_put.
    + now rewrite String.eqb_refl.
    + intros x Hx. now rewrite Hx, String.eqb_refl.
Qed.

(** X10: of two [updateExpense] under one id the second wins: the store is the
    one a single [updateExpense] of the second record gives.  In
    particular doing the same [updateExpense] twice is doing it once. *)
Theorem updateExpense_last_wins e1 e2 w :
  id e1 = id e2 ->
  bind (Db.updateExpense e1) (fun _ => Db.updateExpense e2) w
  = Db.updateExpense e2 w.
Proof.
  intros Hid. unfold bind, Db.updateExpense, set_local. simpl. do 2 f_equal.
  induction (local w) as [|x s IH]; simpl.
  - now rewrite Hid, compare_refl.
  - rewrite Hid. destruct (String.compare (id e2) (id x)) eqn:E; simpl.
    + now rewrite Hid, compare_refl.
    + now rewrite Hid, compare_refl.
    + now rewrite E, IH.
Qed.

(** X11: [deleteExpense] of an id the store does not have changes nothing, and
    [deleteExpense] after [addExpense] of a record whose id was not in the
    store gives the store back. *)
Theorem deleteExpense_round_trip e w :
  ~ ObjectStore.present (id e) (local w) ->
  Db.deleteExpense (id e) w = (Ok tt, w)
  /\ bind (Db.addExpense e) (fun _ => Db.deleteExpense (id e)) w = (Ok tt, w).
Proof.
  intros H. split.
  - unfold Db.deleteExpense, set_local.
    rewrite (delete_absent_same _ _ H). now rewrite world_eta.
  - unfold bind, Db.addExpense, ObjectStore.add.
    destruct (ObjectStore.has_key (id e) (local w)) eqn:E;
      [apply has_key_present in E; contradiction|].
    unfold Db.deleteExpense, set_local. simpl.
    assert (Hd : ObjectStore.delete (id e) (ObjectStore.put e (local w))
                 = local w).
    { unfold ObjectStore.delete.
      rewrite filter_put.
      - now apply delete_absent_same.
      - now rewrite String.eqb_refl.
      - intros x Hx. now rewrite Hx, String.eqb_refl. }
    now rewrite Hd, world_eta.
Qed.

(** * More of src/App.jsx: loading *)

Lemma loadExpenses_cases b w :
  App.loadExpenses b w
  = (Ok tt,
     if b then
       match net w with
       | true :: rest =>
           mkWorld (remote w)
                   (Spec.written_back (local w) (map mark_synced (remote w)))
                   (Spec.working_set (remote w) (local w))
                   (syncing w) rest (issued w ++ [HttpGet])
       | _ =>
           mkWorld (remote w) (local w) (local w) (syncing w) (tl (net w))
                   (issued w ++ [HttpGet])
       end
     else
       mkWorld (remote w) (local w) (local w) (syncing w) (net w) (issued w)).
Proof.
  destruct b; [|reflexivity].
  destruct (net w) as [|[|] rest] eqn:E.
  - rewrite loadExpenses_unreachable by now rewrite E. now rewrite E.
  - now rewrite (loadExpenses_resolves _ _ E).
  - rewrite loadExpenses_unreachable by now rewrite E. now rewrite E.
Qed.

(** X12: [loadExpenses] never throws and never changes the remote list; online
    it issues one GET and nothing else, offline it issues nothing and
    leaves the store as it is, showing what the store holds. *)
Theorem loadExpenses_effects b w :
  let w' := snd (App.loadExpenses b w) in
  fst (App.loadExpenses b w) = Ok tt
  /\ remote w' = remote w
  /\ syncing w' = syncing w
  /\ issued w' = issued w ++ (if b then [HttpGet] else [])
  /\ (b = false -> local w' = local w /\ shown w' = ObjectStore.getAll (local w)).
Proof.
  rewrite loadExpenses_cases. simpl. destruct b.
  - destruct (net w) as [|[|] rest]; simpl; repeat split; discriminate.
  - simpl. rewrite app_nil_r. repeat split.
Qed.

(** X13: when the app believes it is online and the GET does not get through,
    [loadExpenses] falls back to the local store: it shows what the store
    holds and leaves the store as it is. *)
Theorem loadExpenses_falls_back w :
  hd false (net w) = false ->
  let w' := snd (App.loadExpenses true w) in
  fst (App.loadExpenses true w) = Ok tt
  /\ shown w' = ObjectStore.getAll (local w)
  /\ local w' = local w
  /\ issued w' = issued w ++ [HttpGet].
Proof.
  intros H. rewrite loadExpenses_cases.
  destruct (net w) as [|[|] rest]; simpl in *; try discriminate;
    repeat split.
Qed.

Lemma map_id_mark_synced l : map id (map mark_synced l) = map Remote.id l.
Proof. rewrite map_map. reflexivity. Qed.

Lemma NoDup_map_filter (f : expense -> bool) l :
  NoDup (map id l) -> NoDup (map id (filter f l)).
Proof.
  induction l as [|x l IH]; simpl; [trivial|].
  intros H. apply NoDup_cons_iff in H. destruct H as [Hx Hl].
  destruct (f x); simpl; [|now apply IH].
  constructor; [|now apply IH].
  intros Hin. apply Hx. apply in_map_iff in Hin.
  destruct Hin as [y [Hy Hin]]. apply filter_In in Hin.
  apply in_map_iff. exists y. tauto.
Qed.

(** X14: when the ids of the remote list are all different and the store is
    ordered, the working set [loadExpenses] shows online has no two records
    with one id. *)
Theorem loadExpenses_shows_each_id_once w :
  Spec.resolves 1 w ->
  Remote.unique_ids (remote w) ->
  ObjectStore.ordered (local w) ->
  NoDup (map id (shown (snd (App.loadExpenses true w)))).
Proof.
  intros Hres Hr Hl. destruct (resolves_S _ _ Hres) as [rest [Hnet _]].
  rewrite loadExpenses_cases, Hnet. simpl.
  unfold Spec.working_set. rewrite map_app, map_id_mark_synced.
  apply NoDup_app.
  - exact Hr.
  - apply NoDup_map_filter. now apply ordered_unique.
  - intros a Ha Hin. apply in_map_iff in Hin.
    destruct Hin as [x [Hx Hin]]. apply filter_In in Hin.
    destruct Hin as [_ Hf]. apply andb_prop in Hf. destruct Hf as [_ Hf].
    apply negb_true_iff in Hf.
    assert (Ht : existsb (fun r => Remote.id r =? id x) (remote w) = true).
    { apply existsb_exists. apply in_map_iff in Ha.
      destruct Ha as [r [Hr' Hin']]. exists r. split; [exact Hin'|].
      apply String.eqb_eq. congruence. }
    congruence.
Qed.

Lemma written_back_keeps x l : forall s,
  In x s -> (forall y, In y l -> id y <> id x) ->
  In x (Spec.written_back s l).
Proof.
  induction l as [|a l IH]; intros s Hin Hne; simpl; [exact Hin|].
  apply IH.
  - apply in_put_other; [exact Hin|].
    intros Heq. apply (Hne a); [now left|now symmetry].
  - intros y Hy. apply Hne. now right.
Qed.

Lemma written_back_has l : forall s e,
  NoDup (map id l) -> In e l -> In e (Spec.written_back s l).
Proof.
  induction l as [|a l IH]; intros s e Hnd Hin; simpl; [contradiction|].
  simpl in Hnd. apply NoDup_cons_iff in Hnd. destruct Hnd as [Ha Hl].
  destruct Hin as [<-|Hin]; [|now apply IH].
  apply written_back_keeps; [apply in_put_self|].
  intros y Hy Heq. apply Ha. rewrite <- Heq. now apply in_map.
Qed.

Lemma written_back_outside (keep : expense -> bool) l : forall s,
  (forall r x, In r l -> id x = Remote.id r -> keep x = false) ->
  filter keep (Spec.written_back s (map mark_synced l)) = filter keep s.
Proof.
  induction l as [|r l IH]; intros s Hk; simpl; [reflexivity|].
  rewrite IH by (intros r0 x Hr0; apply Hk; now right).
  apply filter_put.
  - apply (Hk r); [now left|reflexivity].
  - intros x Hx. apply (Hk r); [now left|exact Hx].
Qed.

Lemma same_id_same_record (l : list expense) x y :
  NoDup (map id l) -> In x l -> In y l -> id x = id y -> x = y.
Proof.
  induction l as [|a l IH]; simpl; [contradiction|].
  intros Hnd Hx Hy Hid. apply NoDup_cons_iff in Hnd. destruct Hnd as [Ha Hl].
  destruct Hx as [<-|Hx], Hy as [<-|Hy]; auto.
  - exfalso. apply Ha. rewrite Hid. now apply in_map.
  - exfalso. apply Ha. rewrite <- Hid. now apply in_map.
Qed.

Lemma written_back_ordered l : forall s,
  ObjectStore.ordered s -> ObjectStore.ordered (Spec.written_back s l).
Proof.
  induction l as [|e l IH]; intros s H; simpl; [exact H|].
  apply IH. now apply put_ordered.
Qed.

(** X15: when the ids of the remote list are all different, after
    [loadExpenses] online every remote record is in the store, marked
    synced, and the records of the store whose id is no remote id are as
    they were.  When the store is ordered, the remote record takes the
    place of whatever the store held under its id: the only record the
    store has under a remote id is that remote record, marked synced, so a
    pending edit under that id is gone. *)
Theorem loadExpenses_remote_wins w :
  Spec.resolves 1 w ->
  Remote.unique_ids (remote w) ->
  let w' := snd (App.loadExpenses true w) in
  (forall r, In r (remote w) ->
     In (mkExpense (Remote.id r) (Remote.amount r) (Remote.description r)
                   (Remote.category r) (Remote.date r) true)
        (local w'))
  /\ filter (fun l => negb (existsb (fun r => Remote.id r =? id l) (remote w)))
            (local w')
     = filter (fun l => negb (existsb (fun r => Remote.id r =? id l) (remote w)))
              (local w)
  /\ (ObjectStore.ordered (local w) ->
      forall x r,
        In x (local w') -> In r (remote w) -> id x = Remote.id r ->
        x = mkExpense (Remote.id r) (Remote.amount r) (Remote.description r)
                      (Remote.category r) (Remote.date r) true).
Proof.
  intros Hres Hr. destruct (resolves_S _ _ Hres) as [rest [Hnet _]].
  rewrite loadExpenses_cases, Hnet. simpl.
  assert (Hhas : forall r, In r (remote w) ->
            In (mark_synced r)
               (Spec.written_back (local w) (map mark_synced (remote w)))).
  { intros r Hin. apply written_back_has.
    - now rewrite map_id_mark_synced.
    - now apply in_map. }
  split; [exact Hhas|split].
  - apply written_back_outside. intros r x Hin Hx.
    apply negb_false_iff. apply existsb_exists. exists r.
    split; [exact Hin|]. rewrite Hx. apply String.eqb_refl.
  - intros Hord x r Hx Hin Hid.
    change (x = mark_synced r).
    apply (same_id_same_record
             (Spec.written_back (local w) (map mark_synced (remote w))));
      auto.
    apply ordered_unique. now apply written_back_ordered.
Qed.

(** * More of src/App.jsx: the push sweep and what follows it *)

Lemma firstn_S_true k : forall l,
  firstn (S k) l = repeat true (S k) ->
  firstn k l = repeat true k /\ skipn k l = true :: skipn (S k) l.
Proof.
  induction k as [|k IH]; intros [|b r]; simpl; try discriminate.
  - intros [= ->]. now split.
  - intros [= -> H]. destruct (IH r H) as [H1 H2]. split.
    + simpl in H1. now rewrite H1.
    + exact H2.
Qed.

Lemma pushed_app l : forall remoteList,
  Spec.pushed remoteList l
  = remoteList
    ++ map body_of (filter (fun exp => Remote.accepted (body_of exp)) l).
Proof.
  unfold Spec.pushed. induction l as [|x l IH]; intros remoteList; simpl.
  - now rewrite app_nil_r.
  - rewrite IH. unfold Remote.post.
    destruct (Remote.accepted (body_of x)); simpl; [|reflexivity].
    now rewrite <- app_assoc.
Qed.

Lemma working_set_all_synced remoteList l :
  Spec.working_set remoteList (map (with_synced true) l)
  = map mark_synced remoteList.
Proof.
  unfold Spec.working_set.
  assert (E : forall f, filter (fun x => negb (synced x) && f x)
                               (map (with_synced true) l) = []).
  { intros f. induction l as [|x l IH]; simpl; [reflexivity|exact IH]. }
  rewrite (E (fun x => negb (existsb (fun r => Remote.id r =? id x) remoteList))).
  apply app_nil_r.
Qed.

Lemma sweep_nothing l : forall w,
  Spec.pending l = [] -> for_of l sweep_body w = (Ok tt, w).
Proof.
  induction l as [|x l IH]; intros w H; [reflexivity|].
  destruct (synced x) eqn:Hs.
  - rewrite for_of_cons. cbv beta. rewrite (turn_synced x w Hs).
    apply IH. now rewrite pending_cons_synced in H.
  - rewrite pending_cons_pending in H by exact Hs. discriminate.
Qed.

Lemma pending_none l :
  Forall (fun exp => synced exp = true) l -> Spec.pending l = [].
Proof.
  unfold Spec.pending. induction 1 as [|x l Hx _ IH]; simpl;
    [reflexivity|now rewrite Hx].
Qed.

(** The world after a sweep and a reload that all got through. *)
Lemma sync_complete w :
  ObjectStore.ordered (local w) ->
  Spec.resolves (S (List.length (Spec.pending (local w)))) w ->
  let pendingList := Spec.pending (local w) in
  let remoteList :=
    remote w
    ++ map body_of (filter (fun exp => Remote.accepted (body_of exp)) pendingList) in
  App.syncExpenses true w
  = (Ok tt,
     mkWorld remoteList
             (Spec.written_back (map (with_synced true) (local w))
                                (map mark_synced remoteList))
             (map mark_synced remoteList)
             false
             (skipn (S (List.length pendingList)) (net w))
             (issued w ++ map HttpPost pendingList ++ [HttpGet])).
Proof.
  intros Hord Hres. cbv zeta.
  destruct (firstn_S_true _ _ Hres) as [Hk Hnext].
  rewrite syncExpenses_unfold.
  rewrite (sweep_resolves (local w) [] (Spec.with_syncing true w));
    auto.
  rewrite loadExpenses_cases. simpl. rewrite Hnext. simpl.
  rewrite working_set_all_synced, pushed_app, <- app_assoc. reflexivity.
Qed.

(** X16: [syncExpenses] never throws, whatever the transport does, and leaves
    [syncing] false. *)
Theorem syncExpenses_never_throws b w :
  fst (App.syncExpenses b w) = Ok tt
  /\ syncing (snd (App.syncExpenses b w)) = false.
Proof.
  rewrite syncExpenses_unfold.
  destruct (for_of (local w) _ (Spec.with_syncing true w)) as [[u|e] w2];
    split; reflexivity.
Qed.


(** X18: after a sweep and a reload that all got through, every record of the
    store is marked synced: nothing is left to push. *)
Theorem syncExpenses_leaves_nothing_pending w :
  ObjectStore.ordered (local w) ->
  Spec.resolves (S (List.length (Spec.pending (local w)))) w ->
  let w' := snd (App.syncExpenses true w) in
  Forall (fun exp => synced exp = true) (local w')
  /\ Spec.pending (local w') = [].
Proof.
  intros Hord Hres. rewrite (sync_complete w Hord Hres). simpl.
  assert (Hall : forall l s,
            Forall (fun exp => synced exp = true) s ->
            Forall (fun exp => synced exp = true)
                   (Spec.written_back s (map mark_synced l))).
  { induction l as [|r l IH]; intros s Hs; simpl; [exact Hs|].
    apply IH. now apply Forall_put. }
  assert (Hm : Forall (fun exp => synced exp = true)
                      (map (with_synced true) (local w))).
  { apply Forall_forall. intros x Hx. apply in_map_iff in Hx.
    destruct Hx as [y [<- _]]. reflexivity. }
  match goal with
  | |- Forall _ (Spec.written_back _ (map mark_synced ?l)) /\ _ =>
      specialize (Hall l _ Hm)
  end.
  split; [exact Hall|]. now apply pending_none.
Qed.

(** X19: A pending record that the service answers with 400 and whose id is not
    on the service is lost from view by a sweep that got through: it is
    marked synced in the store, it is not on the service, and no record of
    the working set has its id. *)
Theorem syncExpenses_drops_rejected_record w exp :
  ObjectStore.ordered (local w) ->
  Spec.resolves (S (List.length (Spec.pending (local w)))) w ->
  In exp (local w) ->
  synced exp = false ->
  Remote.accepted (body_of exp) = false ->
  ~ Remote.present (id exp) (remote w) ->
  let w' := snd (App.syncExpenses true w) in
  In (with_synced true exp) (local w')
  /\ ~ Remote.present (id exp) (remote w')
  /\ ~ In (id exp) (map id (shown w')).
Proof.
  intros Hord Hres Hin Hs Hrej Hfresh. rewrite (sync_complete w Hord Hres).
  simpl.
  assert (Hout : ~ In (id exp)
                   (map Remote.id
                      (remote w
                       ++ map body_of
                            (filter (fun e => Remote.accepted (body_of e))
                                    (Spec.pending (local w)))))).
  { rewrite map_app, in_app_iff. intros [H|H]; [now apply Hfresh|].
    rewrite map_map in H. apply in_map_iff in H.
    destruct H as [x [Hx Hx']]. apply filter_In in Hx'.
    destruct Hx' as [Hp Hacc]. apply filter_In in Hp. destruct Hp as [Hp _].
    assert (x = exp).
    { apply (same_id_same_record (local w)); auto.
      now apply ordered_unique. }
    subst x. congruence. }
  repeat split.
  - apply written_back_keeps.
    + apply in_map_iff. now exists exp.
    + intros y Hy Heq. apply Hout. rewrite <- map_id_mark_synced.
      change (id exp) with (id (with_synced true exp)). rewrite <- Heq.
      now apply in_map.
  - exact Hout.
  - now rewrite map_id_mark_synced.
Qed.

(** X20: with nothing pending in the store, [syncExpenses] makes no create
    request: it only reloads, and the remote list is as it was. *)
Theorem syncExpenses_nothing_to_push b w :
  Spec.pending (local w) = [] ->
  let w' := snd (App.syncExpenses b w) in
  issued w' = issued w ++ (if b then [HttpGet] else [])
  /\ remote w' = remote w.
Proof.
  intros H. rewrite syncExpenses_unfold, (sweep_nothing _ _ H).
  rewrite loadExpenses_cases. simpl. destruct b.
  - destruct (net w) as [|[|] rest]; simpl; now split.
  - simpl. now rewrite app_nil_r.
Qed.

(** * More of src/App.jsx: deleting *)

(** X21: when the app believes it is online and the DELETE does not get
    through, [handleDelete] throws and nothing is deleted: the store, the
    working set and the remote list are as they were. *)
Theorem handleDelete_request_fails exps i w :
  hd false (net w) = false ->
  let w' := snd (App.handleDelete true exps i w) in
  fst (App.handleDelete true exps i w) = Throw NetworkError
  /\ local w' = local w
  /\ shown w' = shown w
  /\ remote w' = remote w.
Proof.
  intros H. rewrite (handleDelete_unreachable _ _ _ H). simpl.
  repeat split.
Qed.


(** * More of src/App.jsx: the summaries and the chart *)

Lemma fold_NaN (l : list expense) :
  fold_left (fun sum exp => num_add sum (amount exp)) l NaN = NaN.
Proof. induction l as [|x l IH]; simpl; [reflexivity|exact IH]. Qed.

Lemma fold_with_NaN (l : list expense) e : forall a,
  In e l -> amount e = NaN ->
  fold_left (fun sum exp => num_add sum (amount exp)) l a = NaN.
Proof.
  induction l as [|x l IH]; intros a Hin He; simpl; [contradiction|].
  destruct Hin as [->|Hin]; [|now apply IH].
  rewrite He. destruct a; simpl; apply fold_NaN.
Qed.

Section SummaryMore.

Variable parse : string -> option Z.
Variable c : Date.clock.

(** X23: for a period that is none of ["today"], ["week"] and ["month"] the
    summary is 0, whatever the working set. *)
Theorem getSummary_unknown_period expenses period :
  period <> "today" -> period <> "week" -> period <> "month" ->
  App.getSummary parse c expenses period = num_zero.
Proof.
  intros H1 H2 H3. unfold App.getSummary, App.start.
  apply String.eqb_neq in H1, H2, H3. rewrite H1, H2, H3.
  assert (E : filter (fun exp => Date.ge (parse (date exp)) None) expenses = []).
  { induction expenses as [|x l IH]; simpl; [reflexivity|].
    unfold Date.ge at 1. now destruct (parse (date x)). }
  now rewrite E.
Qed.

(** X24: one record with a NaN amount whose date is at or after the start of
    the window makes the summary NaN. *)
Theorem getSummary_NaN expenses p exp :
  In exp expenses ->
  amount exp = NaN ->
  Spec.since_start parse c p exp = true ->
  App.getSummary parse c expenses (Spec.name p) = NaN.
Proof.
  intros Hin Hnan Hs. rewrite getSummary_total. unfold Spec.total.
  apply fold_with_NaN with (e := exp); [|exact Hnan].
  apply filter_In. now split.
Qed.

(** X25: A record whose date the engine cannot read counts in no summary. *)
Theorem getSummary_skips_invalid_date before exp after period :
  parse (date exp) = None ->
  App.getSummary parse c (before ++ exp :: after) period
  = App.getSummary parse c (before ++ after) period.
Proof.
  intros H. unfold App.getSummary. rewrite !filter_app. simpl.
  now rewrite H.
Qed.

(** X26: on a working set with no negative amount every summary is a number
    that is at least 0. *)
Theorem getSummary_not_negative expenses period :
  Spec.no_negative_amounts expenses ->
  num_le num_zero (App.getSummary parse c expenses period).
Proof.
  intros H. unfold App.getSummary.
  assert (E : fold_left (fun sum exp => num_add sum (amount exp))
                        (filter (fun _ => false) expenses) num_zero = num_zero).
  { clear. induction expenses as [|x l IH]; simpl; [reflexivity|exact IH]. }
  rewrite <- E at 1.
  apply fold_filter_le; auto using num_le_zero_zero. discriminate.
Qed.

End SummaryMore.

(** X27: the chart has one bar per category, and a record whose category is
    none of the five is in no bar. *)
Theorem chartData_other_category before exp after :
  ~ In (category exp) App.categories ->
  List.length (App.chartData (before ++ exp :: after)) = 5%nat
  /\ App.chartData (before ++ exp :: after) = App.chartData (before ++ after).
Proof.
  intros H. split; [reflexivity|].
  unfold App.chartData. apply map_ext_in. intros cat Hcat.
  rewrite !filter_app. simpl.
  destruct (category exp =? cat) eqn:E; [|reflexivity].
  apply String.eqb_eq in E. subst cat. contradiction.
Qed.

(** X28: on a working set with no negative amount every bar of the chart is a
    number that is at least 0. *)
Theorem chartData_not_negative expenses :
  Spec.no_negative_amounts expenses ->
  Forall (fun bar => num_le num_zero bar) (App.chartData expenses).
Proof.
  intros H. unfold App.chartData. rewrite Forall_map. apply Forall_forall.
  intros cat _.
  assert (E : fold_left (fun sum exp => num_add sum (amount exp))
                        (filter (fun _ => false) expenses) num_zero = num_zero).
  { clear. induction expenses as [|x l IH]; simpl; [reflexivity|exact IH]. }
  rewrite <- E at 1.
  apply fold_filter_le; auto using num_le_zero_zero. discriminate.
Qed.

(** * The further properties on concrete runs *)

Lemma put_replaces_first_witness :
  let updated :=
    Server.mkExpense (VStr "1") Example.fifteen (VStr "Tea") (VStr "Food")
                     (VStr "2024-01-16") in
  exists before x after,
    Server.expenses Example.one_coffee = before ++ x :: after
    /\ Server.id x = VStr "1"
    /\ (forall y, In y before -> Server.id y <> VStr "1")
    /\ Server.put parseFloat_num "1" Example.tea_body Example.one_coffee
       = (Server.mkState (before ++ updated :: after)
            (Server.disk Example.one_coffee ++ [before ++ updated :: after]),
          Server.mkResponse 200 (Server.PExpense updated)).
Proof.
  apply (put_replaces_first parseFloat_num "1" Example.tea_body
           Example.one_coffee).
  - eexists. split; [left; reflexivity|reflexivity].
  - reflexivity.
Defined.

Lemma delete_removes_first_witness :
  exists before x after,
    Server.expenses Example.one_coffee = before ++ x :: after
    /\ Server.id x = VStr "1"
    /\ (forall y, In y before -> Server.id y <> VStr "1")
    /\ Server.delete "1" Example.one_coffee
       = (Server.mkState (before ++ after)
            (Server.disk Example.one_coffee ++ [before ++ after]),
          Server.mkResponse 204 Server.PEmpty).
Proof.
  apply (delete_removes_first "1" Example.one_coffee).
  eexists. split; [left; reflexivity|reflexivity].
Defined.

Lemma post_then_delete_witness :
  Server.expenses
    (fst (Server.delete "1"
            (fst (Server.post parseFloat_num Example.coffee_body
                              Example.empty_server))))
  = Server.expenses Example.empty_server
  /\ Server.status
       (snd (Server.delete "1"
               (fst (Server.post parseFloat_num Example.coffee_body
                                 Example.empty_server))))
     = 204%Z.
Proof.
  apply (post_then_delete parseFloat_num "1" Example.coffee_body
           Example.empty_server).
  - reflexivity.
  - reflexivity.
  - intros [e [[] _]].
Defined.

Lemma run_mirrored_witness :
  Server.mirrored
    (fst (Server.run parseFloat_num
            [Server.POST Example.coffee_body; Server.PUT "1" Example.tea_body;
             Server.GET; Server.DELETE "2"; Server.DELETE "1"]
            Example.empty_server)).
Proof.
  apply (run_mirrored parseFloat_num). left. reflexivity.
Defined.

Lemma run_keeps_required_witness :
  Forall Server.required_truthy
    (Server.expenses
       (fst (Server.run parseFloat_num
               [Server.POST Example.coffee_body;
                Server.POST Example.blank_description;
                Server.PUT "1" Example.tea_body]
               Example.empty_server))).
Proof.
  apply (run_keeps_required parseFloat_num). constructor.
Defined.

Lemma updateExpense_then_getExpenses_witness :
  exists l,
    bind (Db.updateExpense Example.coffee_edited) (fun _ => Db.getExpenses)
         Example.two_pending
    = (Ok l, snd (Db.updateExpense Example.coffee_edited Example.two_pending))
    /\ filter (fun x => id x =? id Example.coffee_edited) l
       = [Example.coffee_edited]
    /\ filter (fun x => negb (id x =? id Example.coffee_edited)) l
       = filter (fun x => negb (id x =? id Example.coffee_edited))
                (local Example.two_pending).
Proof.
  apply (updateExpense_then_getExpenses Example.coffee_edited
           Example.two_pending).
  repeat constructor.
Defined.

Lemma updateExpense_last_wins_witness :
  bind (Db.updateExpense Example.coffee)
       (fun _ => Db.updateExpense Example.coffee_edited) Example.two_pending
  = Db.updateExpense Example.coffee_edited Example.two_pending.
Proof.
  apply (updateExpense_last_wins Example.coffee Example.coffee_edited
           Example.two_pending).
  reflexivity.
Defined.

Lemma deleteExpense_round_trip_witness :
  Db.deleteExpense (id Example.gift) Example.two_pending
  = (Ok tt, Example.two_pending)
  /\ bind (Db.addExpense Example.gift)
          (fun _ => Db.deleteExpense (id Example.gift)) Example.two_pending
     = (Ok tt, Example.two_pending).
Proof.
  apply (deleteExpense_round_trip Example.gift Example.two_pending).
  simpl. intros [H|[H|[]]]; discriminate.
Defined.

Lemma loadExpenses_falls_back_witness :
  fst (App.loadExpenses true Example.server_down) = Ok tt
  /\ shown (snd (App.loadExpenses true Example.server_down))
     = ObjectStore.getAll (local Example.server_down)
  /\ local (snd (App.loadExpenses true Example.server_down))
     = local Example.server_down
  /\ issued (snd (App.loadExpenses true Example.server_down))
     = issued Example.server_down ++ [HttpGet].
Proof.
  apply (loadExpenses_falls_back Example.server_down). reflexivity.
Defined.

Lemma loadExpenses_shows_each_id_once_witness :
  NoDup (map id (shown (snd (App.loadExpenses true Example.edited_offline)))).
Proof.
  apply (loadExpenses_shows_each_id_once Example.edited_offline).
  - reflexivity.
  - repeat constructor. simpl. tauto.
  - repeat constructor.
Defined.

Lemma loadExpenses_remote_wins_witness :
  (forall r, In r (remote Example.edited_offline) ->
     In (mkExpense (Remote.id r) (Remote.amount r) (Remote.description r)
                   (Remote.category r) (Remote.date r) true)
        (local (snd (App.loadExpenses true Example.edited_offline))))
  /\ filter (fun l => negb (existsb (fun r => Remote.id r =? id l)
                                    (remote Example.edited_offline)))
            (local (snd (App.loadExpenses true Example.edited_offline)))
     = filter (fun l => negb (existsb (fun r => Remote.id r =? id l)
                                      (remote Example.edited_offline)))
              (local Example.edited_offline)
  /\ (forall x r,
        In x (local (snd (App.loadExpenses true Example.edited_offline))) ->
        In r (remote Example.edited_offline) -> id x = Remote.id r ->
        x = mkExpense (Remote.id r) (Remote.amount r) (Remote.description r)
                      (Remote.category r) (Remote.date r) true).
Proof.
  destruct (loadExpenses_remote_wins Example.edited_offline)
    as [H1 [H2 H3]].
  - reflexivity.
  - repeat constructor. simpl. tauto.
  - split; [exact H1|split; [exact H2|]].
    apply H3. repeat constructor.
Defined.


Lemma syncExpenses_leaves_nothing_pending_witness :
  Forall (fun exp => synced exp = true)
         (local (snd (App.syncExpenses true Example.two_pending)))
  /\ Spec.pending (local (snd (App.syncExpenses true Example.two_pending))) = [].
Proof.
  apply (syncExpenses_leaves_nothing_pending Example.two_pending).
  - repeat constructor.
  - reflexivity.
Defined.

Lemma syncExpenses_drops_rejected_record_witness :
  In (with_synced true Example.free_sample)
     (local (snd (App.syncExpenses true Example.only_free_sample)))
  /\ ~ Remote.present (id Example.free_sample)
         (remote (snd (App.syncExpenses true Example.only_free_sample)))
  /\ ~ In (id Example.free_sample)
         (map id (shown (snd (App.syncExpenses true Example.only_free_sample)))).
Proof.
  apply (syncExpenses_drops_rejected_record Example.only_free_sample
           Example.free_sample).
  - repeat constructor.
  - reflexivity.
  - left. reflexivity.
  - reflexivity.
  - reflexivity.
  - intros [].
Defined.

Lemma syncExpenses_nothing_to_push_witness :
  issued (snd (App.syncExpenses true Example.all_synced))
  = issued Example.all_synced ++ [HttpGet]
  /\ remote (snd (App.syncExpenses true Example.all_synced))
     = remote Example.all_synced.
Proof.
  apply (syncExpenses_nothing_to_push true Example.all_synced). reflexivity.
Defined.

Lemma handleDelete_request_fails_witness :
  fst (App.handleDelete true [] "2" Example.server_down) = Throw NetworkError
  /\ local (snd (App.handleDelete true [] "2" Example.server_down))
     = local Example.server_down
  /\ shown (snd (App.handleDelete true [] "2" Example.server_down))
     = shown Example.server_down
  /\ remote (snd (App.handleDelete true [] "2" Example.server_down))
     = remote Example.server_down.
Proof.
  apply (handleDelete_request_fails [] "2" Example.server_down). reflexivity.
Defined.


Lemma getSummary_unknown_period_witness :
  App.getSummary Date.parse_date_only Example.noon
                 [Example.coffee; Example.bus] "year"
  = num_zero.
Proof.
  apply (getSummary_unknown_period Date.parse_date_only Example.noon
           [Example.coffee; Example.bus] "year"); discriminate.
Defined.

Lemma getSummary_NaN_witness :
  App.getSummary Date.parse_date_only Example.noon
                 [Example.coffee; Example.no_amount] (Spec.name Spec.Today)
  = NaN.
Proof.
  apply (getSummary_NaN Date.parse_date_only Example.noon
           [Example.coffee; Example.no_amount] Spec.Today Example.no_amount).
  - right. left. reflexivity.
  - reflexivity.
  - reflexivity.
Defined.

Lemma getSummary_skips_invalid_date_witness :
  App.getSummary Date.parse_date_only Example.noon
                 ([Example.coffee] ++ Example.gift :: [Example.bus]) "month"
  = App.getSummary Date.parse_date_only Example.noon
                   ([Example.coffee] ++ [Example.bus]) "month".
Proof.
  apply (getSummary_skips_invalid_date Date.parse_date_only Example.noon
           [Example.coffee] Example.gift [Example.bus] "month").
  reflexivity.
Defined.

Lemma getSummary_not_negative_witness :
  num_le num_zero
         (App.getSummary Date.parse_date_only Example.noon
                         [Example.coffee; Example.bus] "month").
Proof.
  apply (getSummary_not_negative Date.parse_date_only Example.noon
           [Example.coffee; Example.bus] "month").
  repeat constructor; simpl; unfold Qcle, Qle; simpl; lia.
Defined.

Lemma chartData_other_category_witness :
  List.length (App.chartData ([Example.coffee] ++ Example.gift :: [Example.bus]))
  = 5%nat
  /\ App.chartData ([Example.coffee] ++ Example.gift :: [Example.bus])
     = App.chartData ([Example.coffee] ++ [Example.bus]).
Proof.
  apply (chartData_other_category [Example.coffee] Example.gift [Example.bus]).
  simpl. intros [H|[H|[H|[H|[H|[]]]]]]; discriminate.
Defined.

Lemma chartData_not_negative_witness :
  Forall (fun bar => num_le num_zero bar)
         (App.chartData [Example.coffee; Example.bus]).
Proof.
  apply (chartData_not_negative [Example.coffee; Example.bus]).
  repeat constructor; simpl; unfold Qcle, Qle; simpl; lia.
Defined.
